(** * Halide [apps/resize]: the resampling generator over the reals

    Shallow embedding of [apps/resize/resize_generator.cpp].

    The generator builds a pipeline of Halide [Func]s over [float] and
    [int] expressions.  The embedding reads every [float] expression as a
    real number (exact arithmetic: no rounding, no infinities, no NaN)
    and every [int] expression as an integer of [Z] (no 32-bit
    wrap-around).  A [Func] is a total function of its integer
    coordinates; [select] is a conditional on a decidable comparison;
    [sum] over an [RDom] is a left-to-right accumulation starting from
    zero.  Division is the total division of [R]; the weights are
    quotients by the kernel sums, and where a kernel sum is zero the
    source divides by zero: module [Partial] gives the pipeline with
    that case made explicit.  The schedule
    (source lines 132-175) does not change the values computed and is
    not modelled. *)

From Stdlib Require Import Reals ZArith List String Bool FinFun Lia Lra Psatz.
Import ListNotations.

Open Scope string_scope.
Open Scope R_scope.

(** ** Halide primitives *)

Module Halide.

(** Comparisons of [float] expressions, as the booleans [select] tests. *)
Definition Rleb (a b : R) : bool := if Rle_dec a b then true else false.
Definition Rltb (a b : R) : bool := if Rlt_dec a b then true else false.
Definition Rgtb (a b : R) : bool := Rltb b a.
Definition Reqb (a b : R) : bool := if Req_dec_T a b then true else false.

(** [select(c, a, b)]. *)
Definition select (c : bool) (a b : R) : R := if c then a else b.

(** [ceil] followed by the conversion to [int]: the least integer that is
    not below [r]. *)
Definition ceilZ (r : R) : Z := (1 - up (- r))%Z.

(** [clamp(a, lo, hi) = max(min(a, hi), lo)] on [float] expressions. *)
Definition clamp (a lo hi : R) : R := Rmax (Rmin a hi) lo.

(** [clamp] on [int] expressions. *)
Definition clampZ (a lo hi : Z) : Z := Z.max (Z.min a hi) lo.

(** The iteration points [0, 1, ..., n-1] of [RDom r(0, n)]. *)
Definition rdom (n : Z) : list Z := map Z.of_nat (seq 0 (Z.to_nat n)).

(** [sum(f(r))] over [RDom r(0, n)]: an accumulator initialised to [0]
    and updated with [+=] at each point of the domain, in order. *)
Definition rsum (n : Z) (f : Z -> R) : R :=
  fold_left (fun acc r => acc + f r) (rdom n) 0.

End Halide.
Import Halide.

(** ** Kernel library (source lines 5-52) *)

Inductive InterpolationType := Box | Linear | Cubic | Lanczos.

Definition kernel_box (x : R) : R :=
  let xx := Rabs x in
  select (Rleb xx 0.5) 1 0.

Definition kernel_linear (x : R) : R :=
  let xx := Rabs x in
  select (Rltb xx 1) (1 - xx) 0.

Definition kernel_cubic (x : R) : R :=
  let xx := Rabs x in
  let xx2 := xx * xx in
  let xx3 := xx2 * xx in
  let a := -0.5 in
  select (Rltb xx 1) ((a + 2) * xx3 - (a + 3) * xx2 + 1)
         (select (Rltb xx 2) (a * xx3 - 5 * a * xx2 + 8 * a * xx - 4 * a)
                 0).

Definition sinc (x : R) : R := sin (PI * x) / x.

Definition kernel_lanczos (x : R) : R :=
  let value := sinc x * sinc (x / 3) in
  let value := select (Reqb x 0) 1 value in
  let value := select (Rgtb x 3 || Rltb x (-3)) 0 value in
  value.

Record KernelInfo := {
  name : string;
  taps : Z;
  kernel : R -> R
}.

Definition kernel_info (t : InterpolationType) : KernelInfo :=
  match t with
  | Box => {| name := "box"; taps := 1; kernel := kernel_box |}
  | Linear => {| name := "linear"; taps := 2; kernel := kernel_linear |}
  | Cubic => {| name := "cubic"; taps := 4; kernel := kernel_cubic |}
  | Lanczos => {| name := "lanczos"; taps := 6; kernel := kernel_lanczos |}
  end.

(** ** Image buffers and the boundary handler *)

(** A three-dimensional [Buffer<float>]: per-axis origin and extent, and
    the samples.  Only coordinates inside the three ranges are stored;
    [data] outside them stands for memory that is not part of the buffer. *)
Record Buffer := {
  x_min : Z; x_extent : Z;
  y_min : Z; y_extent : Z;
  c_min : Z; c_extent : Z;
  data : Z -> Z -> Z -> R
}.

Definition in_range (lo extent i : Z) : bool :=
  ((lo <=? i) && (i <? lo + extent))%Z.

Definition in_bounds (b : Buffer) (x y c : Z) : bool :=
  in_range (x_min b) (x_extent b) x
  && in_range (y_min b) (y_extent b) y
  && in_range (c_min b) (c_extent b) c.

(** A checked read of the buffer: [None] is an access outside of it. *)
Definition buffer_read (b : Buffer) (x y c : Z) : option R :=
  if in_bounds b x y c then Some (data b x y c) else None.

(** Modelled from the spec: [BoundaryConditions::repeat_edge], whose
    definition is not part of the generator's source file.  Section 4.2:
    the coordinate is clamped into the valid index range [min, min +
    extent - 1] of each listed axis; the view reads the buffer at the
    clamped coordinate. *)
Definition repeat_edge_coord (lo extent i : Z) : Z :=
  clampZ i lo (lo + extent - 1).

(** Modelled from the spec: [repeat_edge(input, {{min0, extent0}, {min1,
    extent1}})] as a view of the buffer: dimensions 0 and 1 are clamped,
    the channel coordinate is passed through. *)
Definition repeat_edge (b : Buffer) (x y c : Z) : R :=
  data b
       (repeat_edge_coord (x_min b) (x_extent b) x)
       (repeat_edge_coord (y_min b) (y_extent b) y)
       c.

(** ** The generator (source lines 81-130) *)

Section Resize.

Variable interpolation_type : InterpolationType.
Variable upsample : bool.
Variable input : Buffer.
Variable scale_factor : R.

(** Source lines 83-85. *)
Definition clamped (x y c : Z) : R := repeat_edge input x y c.

(** Source lines 90-94. *)
Definition kernel_scaling : R := if upsample then 1 else scale_factor.

Definition kernel_radius : R :=
  0.5 * IZR (taps (kernel_info interpolation_type)) / kernel_scaling.

(** The extent of [RDom r(0, kernel_taps)]. *)
Definition kernel_taps : Z :=
  ceilZ (IZR (taps (kernel_info interpolation_type)) / kernel_scaling).

(** Source lines 97-104: the coordinate inside the source image and the
    first source index touched. *)
Definition sourcex (x : Z) : R := (IZR x + 0.5) / scale_factor - 0.5.
Definition sourcey (y : Z) : R := (IZR y + 0.5) / scale_factor - 0.5.

Definition beginx (x : Z) : Z := ceilZ (sourcex x - kernel_radius).
Definition beginy (y : Z) : Z := ceilZ (sourcey y - kernel_radius).

(** Source lines 107-116: the weight tables. *)
Definition info : KernelInfo := kernel_info interpolation_type.

Definition unnormalized_kernel_x (x k : Z) : R :=
  kernel info ((IZR (k + beginx x) - sourcex x) * kernel_scaling).
Definition unnormalized_kernel_y (y k : Z) : R :=
  kernel info ((IZR (k + beginy y) - sourcey y) * kernel_scaling).

Definition kernel_sum_x (x : Z) : R :=
  rsum kernel_taps (fun r => unnormalized_kernel_x x r).
Definition kernel_sum_y (y : Z) : R :=
  rsum kernel_taps (fun r => unnormalized_kernel_y y r).

Definition kernel_x (x k : Z) : R :=
  unnormalized_kernel_x x k / kernel_sum_x x.
Definition kernel_y (y k : Z) : R :=
  unnormalized_kernel_y y k / kernel_sum_y y.

(** Source lines 122-123, the [upsample] branch: resample in x first,
    then in y. *)
Definition resized_x_up (x y c : Z) : R :=
  rsum kernel_taps (fun r => kernel_x x r * clamped (r + beginx x) y c).
Definition resized_y_up (x y c : Z) : R :=
  rsum kernel_taps (fun r => kernel_y y r * resized_x_up x (r + beginy y) c).

(** Source lines 126-127, the other branch: resample in y first, then
    in x. *)
Definition resized_y_down (x y c : Z) : R :=
  rsum kernel_taps (fun r => kernel_y y r * clamped x (r + beginy y) c).
Definition resized_x_down (x y c : Z) : R :=
  rsum kernel_taps
       (fun r => kernel_x x r * resized_y_down (r + beginx x) y c).

(** Source lines 124 and 128. *)
Definition output (x y c : Z) : R :=
  if upsample then clamp (resized_y_up x y c) 0 1
  else clamp (resized_x_down x y c) 0 1.

End Resize.

(** ** The pipeline with the divisions made explicit *)

(** Source lines 115-116 divide by the kernel sums, which can be zero;
    the other divisions of the generator are by [scale_factor] and by
    [kernel_scaling], positive whenever the scale factor is.  In this
    reading an expression denotes [Some v], a real number, or [None]
    when it contains a quotient by zero: an infinity or a NaN in the
    source, handed on by the products and turned into a NaN by the sums.
    Halide fixes no result for [min] and [max] on a NaN, so [clamp]
    hands it on here too. *)
Module Partial.

Definition div (a b : R) : option R :=
  if Reqb b 0 then None else Some (a / b).

Definition mul (a b : option R) : option R :=
  match a, b with
  | Some u, Some v => Some (u * v)
  | _, _ => None
  end.

Definition add (a b : option R) : option R :=
  match a, b with
  | Some u, Some v => Some (u + v)
  | _, _ => None
  end.

Definition clamp (a : option R) (lo hi : R) : option R :=
  match a with
  | Some v => Some (Halide.clamp v lo hi)
  | None => None
  end.

Definition rsum (n : Z) (f : Z -> option R) : option R :=
  fold_left (fun acc r => add acc (f r)) (rdom n) (Some 0).

Section Resize.

Variable interpolation_type : InterpolationType.
Variable upsample : bool.
Variable input : Buffer.
Variable scale_factor : R.

Definition kernel_x (x k : Z) : option R :=
  div (unnormalized_kernel_x interpolation_type upsample scale_factor x k)
      (kernel_sum_x interpolation_type upsample scale_factor x).
Definition kernel_y (y k : Z) : option R :=
  div (unnormalized_kernel_y interpolation_type upsample scale_factor y k)
      (kernel_sum_y interpolation_type upsample scale_factor y).

Definition resized_x_up (x y c : Z) : option R :=
  rsum (kernel_taps interpolation_type upsample scale_factor)
       (fun r =>
          mul (kernel_x x r)
              (Some (clamped input
                       (r + beginx interpolation_type upsample
                                   scale_factor x) y c))).
Definition resized_y_up (x y c : Z) : option R :=
  rsum (kernel_taps interpolation_type upsample scale_factor)
       (fun r =>
          mul (kernel_y y r)
              (resized_x_up x (r + beginy interpolation_type upsample
                                          scale_factor y) c)).

Definition resized_y_down (x y c : Z) : option R :=
  rsum (kernel_taps interpolation_type upsample scale_factor)
       (fun r =>
          mul (kernel_y y r)
              (Some (clamped input x
                       (r + beginy interpolation_type upsample
                                   scale_factor y) c))).
Definition resized_x_down (x y c : Z) : option R :=
  rsum (kernel_taps interpolation_type upsample scale_factor)
       (fun r =>
          mul (kernel_x x r)
              (resized_y_down (r + beginx interpolation_type upsample
                                          scale_factor x) y c)).

Definition output (x y c : Z) : option R :=
  if upsample then clamp (resized_y_up x y c) 0 1
  else clamp (resized_x_down x y c) 0 1.

End Resize.

End Partial.

(** ** Reference definitions, from the specification *)

(** The normalised cardinal sine of the specification,
    [sinc(x) = sin(pi x) / (pi x)]. *)
Definition sinc_spec (x : R) : R := sin (PI * x) / (PI * x).

(** The three-lobe Lanczos window as the specification words it:
    [1] at [t = 0], [sinc(t) sinc(t/3)] for [|t| < 3], [0] for [|t| >= 3]. *)
Definition lanczos_spec (t : R) : R :=
  if Req_dec_T t 0 then 1
  else if Rlt_dec (Rabs t) 3 then sinc_spec t * sinc_spec (t / 3)
  else 0.

(** The Keys cubic convolution kernel with parameter [a], as the
    specification words it. *)
Definition keys_cubic (a t : R) : R :=
  if Rlt_dec (Rabs t) 1 then
    (a + 2) * (Rabs t) ^ 3 - (a + 3) * t ^ 2 + 1
  else if Rlt_dec (Rabs t) 2 then
    a * (Rabs t) ^ 3 - 5 * a * t ^ 2 + 8 * a * Rabs t - 4 * a
  else 0.

(** ** Test images *)

(** Two 1x1 images with two channels: equal on channel 0, different on
    channel 1. *)
Definition two_channel_a : Buffer :=
  {| x_min := 0; x_extent := 1; y_min := 0; y_extent := 1;
     c_min := 0; c_extent := 2;
     data := fun _ _ c => if (c =? 0)%Z then 0.5 else 0 |}.

Definition two_channel_b : Buffer :=
  {| x_min := 0; x_extent := 1; y_min := 0; y_extent := 1;
     c_min := 0; c_extent := 2;
     data := fun _ _ c => if (c =? 0)%Z then 0.5 else 1 |}.

(** A 2x1 single-channel image holding [0] at x = 0 and [1] at x = 1. *)
Definition step_image : Buffer :=
  {| x_min := 0; x_extent := 2; y_min := 0; y_extent := 1;
     c_min := 0; c_extent := 1;
     data := fun x _ _ => if (x =? 1)%Z then 1 else 0 |}.

(** The 2x2 single-channel image [[0, 1], [1, 0]]. *)
Definition checkerboard : Buffer :=
  {| x_min := 0; x_extent := 2; y_min := 0; y_extent := 2;
     c_min := 0; c_extent := 1;
     data := fun x y _ => if (x =? y)%Z then 0 else 1 |}.

(** A 4x1 single-channel image with a step from [0] to [1] at its last
    pixel. *)
Definition edge_image : Buffer :=
  {| x_min := 0; x_extent := 4; y_min := 0; y_extent := 1;
     c_min := 0; c_extent := 1;
     data := fun x _ _ => if (x =? 3)%Z then 1 else 0 |}.

(** ** Auxiliary notions *)

(** The accumulation of [rsum], over any list of points and from any
    initial value. *)
Definition accumulate (f : Z -> R) (l : list Z) (a : R) : R :=
  fold_left (fun acc r => acc + f r) l a.

(** Index of the tap that falls on the source pixel at scale 1. *)
Definition centre_tap (interpolation_type : InterpolationType) : Z :=
  (taps (kernel_info interpolation_type) / 2)%Z.

(** Position of the first tap relative to the source coordinate. *)
Definition first_offset (interpolation_type : InterpolationType)
           (upsample : bool) (scale_factor : R) (x : Z) : R :=
  IZR (beginx interpolation_type upsample scale_factor x)
  - sourcex scale_factor x.

(** Potentials whose increments over one tap spacing [s] count the taps
    in the two negative lobes and in the centre of the cubic kernel. *)
Definition lobe_left (s t : R) : R := clamp t (-2) (-1 + s).
Definition lobe_right (s t : R) : R := clamp t 1 (2 + s).
Definition centre_ramp (s t : R) : R := clamp t (-1 / 2 + s) (1 / 2).
Definition centre_step (t : R) : R := if Rlt_dec (1 / 2) t then 1 else 0.

(** Potentials for the Lanczos kernel.  [main_potential] has increments
    over one tap spacing [s] of at most [s (1 - |t|)] on the main lobe:
    [main_left] telescopes the rising half exactly, [main_right] the
    falling half, and the constant [1 - s^2 / 4] joins them across the
    centre. *)
Definition main_left (s t : R) : R :=
  let w := Rmax (1 + t) 0 in w * (w - s) / 2.
Definition main_right (s t : R) : R :=
  let w := Rmax (1 - t) 0 in w * (w + s) / 2.
Definition main_potential (s t : R) : R :=
  if Rle_dec t 0 then main_left s t
  else 1 - s * s / 4 - main_right s t.

(** Whether the centre of the kernel has been passed. *)
Definition centre_passed (t : R) : R := if Rlt_dec 0 t then 1 else 0.

(** Potential whose increments are carried by the two taps next to the
    centre. *)
Definition pair_potential (s t : R) : R :=
  if Rle_dec t 0 then 0 else if Rle_dec t s then 1 - s + t else 2 - s.

(** The terms of [f] at the indices [-5 .. 5] that lie below [q]. *)
Definition below (i k : Z) : R := if (i <? k)%Z then 1 else 0.
Definition window (f : Z -> R) (q : Z) : R :=
  f (-5)%Z * below (-5) q + f (-4)%Z * below (-4) q
  + f (-3)%Z * below (-3) q + f (-2)%Z * below (-2) q
  + f (-1)%Z * below (-1) q + f 0%Z * below 0 q
  + f 1%Z * below 1 q + f 2%Z * below 2 q + f 3%Z * below 3 q
  + f 4%Z * below 4 q + f 5%Z * below 5 q.

(** ** Basic facts about the primitives *)

(** Decimal literals such as [0.5] are rationals injected in [R]; this
    exposes them as quotients of integers for [field] and [nra]. *)
Ltac decimals :=
  unfold Q2R, QArith_base.Qnum, QArith_base.Qden in *.

Section Primitives.

Lemma Rleb_true a b : a <= b -> Rleb a b = true.
Proof. unfold Rleb. destruct (Rle_dec a b); tauto. Qed.

Lemma Rleb_false a b : b < a -> Rleb a b = false.
Proof. unfold Rleb. destruct (Rle_dec a b); [lra | reflexivity]. Qed.

Lemma Rltb_true a b : a < b -> Rltb a b = true.
Proof. unfold Rltb. destruct (Rlt_dec a b); tauto. Qed.

Lemma Rltb_false a b : b <= a -> Rltb a b = false.
Proof. unfold Rltb. destruct (Rlt_dec a b); [lra | reflexivity]. Qed.

Lemma Reqb_true a b : a = b -> Reqb a b = true.
Proof. unfold Reqb. destruct (Req_dec_T a b); tauto. Qed.

Lemma Reqb_false a b : a <> b -> Reqb a b = false.
Proof. unfold Reqb. destruct (Req_dec_T a b); tauto. Qed.

Lemma ceilZ_spec r : IZR (ceilZ r) - 1 < r <= IZR (ceilZ r).
Proof.
  unfold ceilZ. rewrite minus_IZR.
  destruct (archimed (- r)) as [Hgt Hle]. split; lra.
Qed.

Lemma ceilZ_unique r n : IZR n - 1 < r <= IZR n -> ceilZ r = n.
Proof.
  intros [Hlo Hhi]. destruct (ceilZ_spec r) as [Clo Chi].
  apply Z.le_antisymm.
  - apply Zlt_succ_le, lt_IZR. rewrite succ_IZR. lra.
  - apply Zlt_succ_le, lt_IZR. rewrite succ_IZR. lra.
Qed.

Lemma ceilZ_IZR n : ceilZ (IZR n) = n.
Proof. apply ceilZ_unique. lra. Qed.

Lemma clamp_bounds a lo hi : lo <= hi -> lo <= clamp a lo hi <= hi.
Proof.
  intros H. unfold clamp, Rmax, Rmin.
  destruct (Rle_dec a hi); destruct (Rle_dec _ lo); lra.
Qed.

Lemma clamp_id a lo hi : lo <= a <= hi -> clamp a lo hi = a.
Proof.
  intros H. unfold clamp, Rmax, Rmin.
  destruct (Rle_dec a hi); destruct (Rle_dec _ lo); lra.
Qed.

Lemma clampZ_bounds a lo hi : (lo <= hi -> lo <= clampZ a lo hi <= hi)%Z.
Proof. unfold clampZ. lia. Qed.

Lemma clampZ_id a lo hi : (lo <= a <= hi -> clampZ a lo hi = a)%Z.
Proof. unfold clampZ. lia. Qed.

End Primitives.

(** ** Sums over a reduction domain *)

Section Sums.

Implicit Types (f g : Z -> R) (l : list Z).

Lemma accumulate_shift f l a : accumulate f l a = a + accumulate f l 0.
Proof.
  unfold accumulate. revert a.
  induction l as [|k l IH]; intros a; simpl.
  - lra.
  - rewrite IH, (IH (0 + f k)). lra.
Qed.

Lemma accumulate_nil f : accumulate f [] 0 = 0.
Proof. reflexivity. Qed.

Lemma accumulate_cons f k l :
  accumulate f (k :: l) 0 = f k + accumulate f l 0.
Proof.
  unfold accumulate at 1. simpl. fold (accumulate f l (0 + f k)).
  rewrite accumulate_shift. lra.
Qed.

Lemma accumulate_ext f g l :
  (forall k, In k l -> f k = g k) -> accumulate f l 0 = accumulate g l 0.
Proof.
  induction l as [|k l IH]; intros H; [reflexivity|].
  rewrite !accumulate_cons, IH, (H k); auto using in_eq, in_cons.
Qed.

Lemma accumulate_scal f l c :
  accumulate (fun r => f r * c) l 0 = accumulate f l 0 * c.
Proof.
  induction l as [|k l IH]; [unfold accumulate; simpl; lra|].
  rewrite !accumulate_cons, IH. lra.
Qed.

Lemma accumulate_plus f g l :
  accumulate (fun r => f r + g r) l 0
  = accumulate f l 0 + accumulate g l 0.
Proof.
  induction l as [|k l IH]; [unfold accumulate; simpl; lra|].
  rewrite !accumulate_cons, IH. lra.
Qed.

Lemma accumulate_nonneg f l :
  (forall k, In k l -> 0 <= f k) -> 0 <= accumulate f l 0.
Proof.
  induction l as [|k l IH]; intros H; [unfold accumulate; simpl; lra|].
  rewrite accumulate_cons.
  assert (0 <= f k) by auto using in_eq.
  assert (0 <= accumulate f l 0) by auto using in_cons. lra.
Qed.

Lemma accumulate_ge_term f l k :
  (forall j, In j l -> 0 <= f j) -> In k l -> f k <= accumulate f l 0.
Proof.
  induction l as [|j l IH]; intros H Hin; [destruct Hin|].
  rewrite accumulate_cons. destruct Hin as [->|Hin].
  - assert (0 <= accumulate f l 0)
      by (apply accumulate_nonneg; auto using in_cons). lra.
  - assert (0 <= f j) by auto using in_eq.
    assert (f k <= accumulate f l 0) by auto using in_cons. lra.
Qed.

(** Exchange of two nested accumulations. *)
Lemma accumulate_exchange (h : Z -> Z -> R) l1 l2 :
  accumulate (fun i => accumulate (fun j => h i j) l2 0) l1 0
  = accumulate (fun j => accumulate (fun i => h i j) l1 0) l2 0.
Proof.
  induction l1 as [|i l1 IH].
  - rewrite accumulate_nil.
    induction l2 as [|j l2 IH2]; [reflexivity|].
    rewrite accumulate_cons, <- IH2, accumulate_nil. lra.
  - rewrite accumulate_cons, IH, <- accumulate_plus.
    apply accumulate_ext. intros j _. now rewrite accumulate_cons.
Qed.

Lemma rsum_accumulate n f : rsum n f = accumulate f (rdom n) 0.
Proof. reflexivity. Qed.

Lemma rdom_In n k : In k (rdom n) <-> (0 <= k < n)%Z.
Proof.
  unfold rdom. rewrite in_map_iff. split.
  - intros [i [<- Hi]]. apply in_seq in Hi. lia.
  - intros H. exists (Z.to_nat k). split; [lia|]. apply in_seq. lia.
Qed.

Lemma rsum_ext n f g :
  (forall k, (0 <= k < n)%Z -> f k = g k) -> rsum n f = rsum n g.
Proof.
  intros H. rewrite !rsum_accumulate. apply accumulate_ext.
  intros k Hk. apply H, rdom_In, Hk.
Qed.

Lemma rsum_scal n f c : rsum n (fun r => f r * c) = rsum n f * c.
Proof. rewrite !rsum_accumulate. apply accumulate_scal. Qed.

Lemma rsum_exchange n m (h : Z -> Z -> R) :
  rsum n (fun i => rsum m (fun j => h i j))
  = rsum m (fun j => rsum n (fun i => h i j)).
Proof. unfold rsum. apply (accumulate_exchange h). Qed.

Lemma rsum_1 f : rsum 1 f = f 0%Z.
Proof. unfold rsum. simpl. lra. Qed.

Lemma rsum_2 f : rsum 2 f = f 0%Z + f 1%Z.
Proof. unfold rsum. simpl. lra. Qed.

Lemma rsum_4 f : rsum 4 f = f 0%Z + f 1%Z + f 2%Z + f 3%Z.
Proof. unfold rsum. simpl. lra. Qed.

Lemma rsum_6 f :
  rsum 6 f = f 0%Z + f 1%Z + f 2%Z + f 3%Z + f 4%Z + f 5%Z.
Proof. unfold rsum. simpl. lra. Qed.

End Sums.

(** ** The kernels, piece by piece *)

Section Kernels.

Lemma kernel_box_inside x : Rabs x <= 0.5 -> kernel_box x = 1.
Proof. intros H. unfold kernel_box. now rewrite Rleb_true. Qed.

Lemma kernel_box_outside x : 0.5 < Rabs x -> kernel_box x = 0.
Proof. intros H. unfold kernel_box. now rewrite Rleb_false. Qed.

Lemma kernel_box_nonneg x : 0 <= kernel_box x.
Proof.
  destruct (Rle_dec (Rabs x) 0.5).
  - rewrite kernel_box_inside; lra.
  - rewrite kernel_box_outside; lra.
Qed.

Lemma kernel_linear_inside x : Rabs x < 1 -> kernel_linear x = 1 - Rabs x.
Proof. intros H. unfold kernel_linear. now rewrite Rltb_true. Qed.

Lemma kernel_linear_outside x : 1 <= Rabs x -> kernel_linear x = 0.
Proof. intros H. unfold kernel_linear. now rewrite Rltb_false. Qed.

Lemma kernel_linear_nonneg x : 0 <= kernel_linear x.
Proof.
  destruct (Rlt_dec (Rabs x) 1).
  - rewrite kernel_linear_inside; lra.
  - rewrite kernel_linear_outside; lra.
Qed.

Lemma kernel_cubic_inner x :
  Rabs x < 1 ->
  kernel_cubic x = 1.5 * (Rabs x * Rabs x * Rabs x)
                   - 2.5 * (Rabs x * Rabs x) + 1.
Proof.
  intros H. unfold kernel_cubic. rewrite Rltb_true by assumption.
  unfold select. lra.
Qed.

Lemma kernel_cubic_outer x :
  1 <= Rabs x < 2 ->
  kernel_cubic x = -0.5 * (Rabs x * Rabs x * Rabs x)
                   + 2.5 * (Rabs x * Rabs x) - 4 * Rabs x + 2.
Proof.
  intros [H1 H2]. unfold kernel_cubic.
  rewrite Rltb_false, Rltb_true by assumption. unfold select. lra.
Qed.

Lemma kernel_cubic_outside x : 2 <= Rabs x -> kernel_cubic x = 0.
Proof.
  intros H. unfold kernel_cubic.
  rewrite !Rltb_false by lra. reflexivity.
Qed.

Lemma kernel_cubic_even x : kernel_cubic (- x) = kernel_cubic x.
Proof. unfold kernel_cubic. now rewrite Rabs_Ropp. Qed.

Lemma kernel_lanczos_0 : kernel_lanczos 0 = 1.
Proof.
  unfold kernel_lanczos, Rgtb.
  rewrite Reqb_true, !Rltb_false by lra. reflexivity.
Qed.

Lemma kernel_lanczos_outside x : x < -3 \/ 3 < x -> kernel_lanczos x = 0.
Proof.
  intros [H|H]; unfold kernel_lanczos, Rgtb.
  - rewrite (Rltb_true x) by lra. now rewrite orb_true_r.
  - now rewrite (Rltb_true 3) by lra.
Qed.

Lemma kernel_lanczos_inside x :
  x <> 0 -> -3 <= x <= 3 -> kernel_lanczos x = sinc x * sinc (x / 3).
Proof.
  intros H0 [Hlo Hhi]. unfold kernel_lanczos, Rgtb.
  rewrite Reqb_false, !Rltb_false by (assumption || lra). reflexivity.
Qed.

Lemma sinc_integer n : sinc (IZR n) = 0.
Proof.
  unfold sinc. rewrite (sin_eq_0_1 (PI * IZR n)).
  - unfold Rdiv. apply Rmult_0_l.
  - exists n. apply Rmult_comm.
Qed.

Lemma kernel_lanczos_integer n : n <> 0%Z -> kernel_lanczos (IZR n) = 0.
Proof.
  intros Hn.
  destruct (Rlt_dec (IZR n) (-3)) as [Hlo|Hlo];
    [apply kernel_lanczos_outside; lra|].
  destruct (Rlt_dec 3 (IZR n)) as [Hhi|Hhi];
    [apply kernel_lanczos_outside; lra|].
  rewrite kernel_lanczos_inside, sinc_integer; try lra.
  intros H. apply Hn. now apply eq_IZR.
Qed.

End Kernels.

(** ** The Lanczos kernel against its definition *)

Lemma sinc_scaled x : x <> 0 -> sinc x = PI * sinc_spec x.
Proof.
  intros H. unfold sinc, sinc_spec. field. split; [assumption | apply PI_neq0].
Qed.

(** Away from the origin the source's kernel is the specified one
    multiplied by [pi * pi]: each [sinc] factor misses a division by pi. *)
Lemma kernel_lanczos_scaled t :
  t <> 0 -> Rabs t < 3 -> kernel_lanczos t = PI * PI * lanczos_spec t.
Proof.
  intros H0 H3. unfold lanczos_spec.
  destruct (Req_dec_T t 0) as [|_]; [contradiction|].
  destruct (Rlt_dec (Rabs t) 3) as [_|]; [|contradiction].
  apply Rabs_def2 in H3.
  rewrite kernel_lanczos_inside, !sinc_scaled by lra. ring.
Qed.

Lemma PI_gt_2 : 2 < PI.
Proof. pose proof PI2_1. lra. Qed.

(** C1 (code defect): at the offset [t = 0.5] the source's Lanczos kernel
    evaluates to [6], whereas the specified [sinc(t) sinc(t/3)] with
    [sinc(x) = sin(pi x)/(pi x)] is [6 / pi^2]; the two values differ. *)
Theorem kernel_lanczos_half :
  kernel_lanczos 0.5 = 6
  /\ lanczos_spec 0.5 = 6 / (PI * PI)
  /\ kernel_lanczos 0.5 <> lanczos_spec 0.5.
Proof.
  assert (Hk : kernel_lanczos 0.5 = 6).
  { rewrite kernel_lanczos_inside by lra. unfold sinc.
    replace (PI * 0.5) with (PI / 2) by lra.
    replace (PI * (0.5 / 3)) with (PI / 6) by lra.
    rewrite sin_PI2, sin_PI6. lra. }
  assert (Hs : lanczos_spec 0.5 = 6 / (PI * PI)).
  { pose proof PI_neq0.
    assert (kernel_lanczos 0.5 = PI * PI * lanczos_spec 0.5) as E.
    { apply kernel_lanczos_scaled; [lra|]. rewrite Rabs_pos_eq; lra. }
    rewrite Hk in E. rewrite E. field. assumption. }
  repeat split; try assumption.
  rewrite Hk, Hs. pose proof PI_gt_2 as HPI.
  assert (4 < PI * PI) by nra.
  intros E. apply (f_equal (fun v => v * (PI * PI))) in E.
  unfold Rdiv in E. rewrite Rmult_assoc, Rinv_l in E by lra. lra.
Qed.

(** ** The cubic kernel against the Keys family *)

Lemma kernel_cubic_is_keys t : kernel_cubic t = keys_cubic (-0.5) t.
Proof.
  unfold keys_cubic.
  assert (Hsq : t ^ 2 = Rabs t * Rabs t).
  { unfold Rabs. destruct (Rcase_abs t); ring. }
  destruct (Rlt_dec (Rabs t) 1) as [H1|H1].
  - rewrite kernel_cubic_inner, Hsq by assumption. decimals. field.
  - destruct (Rlt_dec (Rabs t) 2) as [H2|H2].
    + rewrite kernel_cubic_outer, Hsq by lra. decimals. field.
    + apply kernel_cubic_outside. lra.
Qed.

(** The kernel near its breakpoints, as polynomials in the displacement. *)
Lemma kernel_cubic_near_1 h :
  -0.5 < h < 0.5 ->
  kernel_cubic (1 + h) =
    if Rlt_dec h 0 then -0.5 * h + 2 * (h * h) + 1.5 * (h * h * h)
    else -0.5 * h + h * h - 0.5 * (h * h * h).
Proof.
  intros Hh. assert (Ha : Rabs (1 + h) = 1 + h) by (apply Rabs_pos_eq; lra).
  destruct (Rlt_dec h 0).
  - rewrite kernel_cubic_inner, Ha by lra. decimals. field.
  - rewrite kernel_cubic_outer, Ha by lra. decimals. field.
Qed.

Lemma kernel_cubic_near_2 h :
  -0.5 < h < 0.5 ->
  kernel_cubic (2 + h) =
    if Rlt_dec h 0 then -0.5 * (h * h) - 0.5 * (h * h * h) else 0.
Proof.
  intros Hh. assert (Ha : Rabs (2 + h) = 2 + h) by (apply Rabs_pos_eq; lra).
  destruct (Rlt_dec h 0).
  - rewrite kernel_cubic_outer, Ha by lra. decimals. field.
  - rewrite kernel_cubic_outside; [reflexivity | lra].
Qed.

Lemma kernel_cubic_1 : kernel_cubic 1 = 0.
Proof. rewrite kernel_cubic_outer; rewrite Rabs_pos_eq; lra. Qed.

Lemma kernel_cubic_2 : kernel_cubic 2 = 0.
Proof. apply kernel_cubic_outside. rewrite Rabs_pos_eq; lra. Qed.

Lemma posreal_slope_delta (eps : R) : 0 < eps -> 0 < Rmin 0.5 (eps / 4).
Proof. intros H. apply Rmin_glb_lt; lra. Qed.

Lemma kernel_cubic_derivable_1 : derivable_pt_lim kernel_cubic 1 (-0.5).
Proof.
  intros eps Heps.
  exists (mkposreal _ (posreal_slope_delta eps Heps)). simpl.
  intros h Hh0 Hh. apply Rabs_def2 in Hh.
  pose proof (Rmin_l 0.5 (eps / 4)). pose proof (Rmin_r 0.5 (eps / 4)).
  rewrite kernel_cubic_near_1, kernel_cubic_1 by lra.
  destruct (Rlt_dec h 0).
  - replace ((_ - _) / h - -0.5) with (2 * h + 1.5 * (h * h))
      by (decimals; field; assumption).
    apply Rabs_def1; decimals; nra.
  - replace ((_ - _) / h - -0.5) with (h - 0.5 * (h * h))
      by (decimals; field; assumption).
    apply Rabs_def1; decimals; nra.
Qed.

Lemma kernel_cubic_derivable_2 : derivable_pt_lim kernel_cubic 2 0.
Proof.
  intros eps Heps.
  exists (mkposreal _ (posreal_slope_delta eps Heps)). simpl.
  intros h Hh0 Hh. apply Rabs_def2 in Hh.
  pose proof (Rmin_l 0.5 (eps / 4)). pose proof (Rmin_r 0.5 (eps / 4)).
  rewrite kernel_cubic_near_2, kernel_cubic_2 by lra.
  destruct (Rlt_dec h 0).
  - replace ((_ - _) / h - 0) with (-0.5 * h - 0.5 * (h * h))
      by (decimals; field; assumption).
    apply Rabs_def1; decimals; nra.
  - replace ((0 - 0) / h - 0) with 0 by (field; assumption).
    rewrite Rabs_R0. assumption.
Qed.

(** An even function differentiable at [x] is differentiable at [-x],
    with the opposite slope. *)
Lemma derivable_pt_lim_even (f : R -> R) x l :
  (forall t, f (- t) = f t) ->
  derivable_pt_lim f x l -> derivable_pt_lim f (- x) (- l).
Proof.
  intros Hev Hd eps Heps. destruct (Hd eps Heps) as [delta Hdelta].
  exists delta. intros h Hh0 Hh.
  assert (Hn0 : - h <> 0) by lra.
  assert (Hnd : Rabs (- h) < delta) by now rewrite Rabs_Ropp.
  specialize (Hdelta (- h) Hn0 Hnd).
  rewrite <- (Hev (- x + h)), <- (Hev (- x)).
  replace (- (- x + h)) with (x + - h) by ring. rewrite Ropp_involutive.
  replace ((f (x + - h) - f x) / h - - l)
    with (- ((f (x + - h) - f x) / - h - l)) by (field; lra).
  now rewrite Rabs_Ropp.
Qed.

(** C8: the source's cubic kernel is the Keys cubic with [a = -0.5]; at
    the breakpoints [|t| = 1] and [|t| = 2] the adjacent pieces agree in
    value ([0]) and in first derivative ([-/+ 0.5] and [0]), so the kernel
    is differentiable, hence continuous, there. *)
Theorem kernel_cubic_keys_smooth :
  (forall t, kernel_cubic t = keys_cubic (-0.5) t)
  /\ kernel_cubic 1 = 0 /\ kernel_cubic (-1) = 0
  /\ kernel_cubic 2 = 0 /\ kernel_cubic (-2) = 0
  /\ derivable_pt_lim kernel_cubic 1 (-0.5)
  /\ derivable_pt_lim kernel_cubic (-1) 0.5
  /\ derivable_pt_lim kernel_cubic 2 0
  /\ derivable_pt_lim kernel_cubic (-2) 0
  /\ continuity_pt kernel_cubic 1 /\ continuity_pt kernel_cubic (-1)
  /\ continuity_pt kernel_cubic 2 /\ continuity_pt kernel_cubic (-2).
Proof.
  assert (D1 := kernel_cubic_derivable_1).
  assert (D2 := kernel_cubic_derivable_2).
  assert (D1' : derivable_pt_lim kernel_cubic (-1) 0.5).
  { replace 0.5 with (- -0.5) by lra. change (-1) with (Ropp 1).
    apply derivable_pt_lim_even; [apply kernel_cubic_even | exact D1]. }
  assert (D2' : derivable_pt_lim kernel_cubic (-2) 0).
  { replace 0 with (- 0) by lra. change (-2) with (Ropp 2).
    apply derivable_pt_lim_even; [apply kernel_cubic_even | exact D2]. }
  assert (V1 := kernel_cubic_1).
  assert (V2 := kernel_cubic_2).
  split; [exact kernel_cubic_is_keys|].
  repeat split; try assumption.
  - change (-1) with (Ropp 1). now rewrite kernel_cubic_even.
  - change (-2) with (Ropp 2). now rewrite kernel_cubic_even.
  - apply derivable_continuous_pt. eexists; exact D1.
  - apply derivable_continuous_pt. eexists; exact D1'.
  - apply derivable_continuous_pt. eexists; exact D2.
  - apply derivable_continuous_pt. eexists; exact D2'.
Qed.

(** ** The two resampling orders *)

Section Separable.

Variable interpolation_type : InterpolationType.
Variable upsample : bool.
Variable input : Buffer.
Variable scale_factor : R.

Lemma rsum_scal_l n (f : Z -> R) (c : R) :
  rsum n (fun r => c * f r) = c * rsum n f.
Proof.
  rewrite (Rmult_comm c), <- rsum_scal.
  apply rsum_ext. intros k _. apply Rmult_comm.
Qed.

(** With one set of weight tables, filtering along x and then along y
    gives what filtering along y and then along x gives. *)
Lemma resized_orders_agree x y c :
  resized_y_up interpolation_type upsample input scale_factor x y c
  = resized_x_down interpolation_type upsample input scale_factor x y c.
Proof.
  unfold resized_y_up, resized_x_down, resized_x_up, resized_y_down.
  set (n := kernel_taps interpolation_type upsample scale_factor).
  set (kx := kernel_x interpolation_type upsample scale_factor x).
  set (ky := kernel_y interpolation_type upsample scale_factor y).
  set (bx := beginx interpolation_type upsample scale_factor x).
  set (by_ := beginy interpolation_type upsample scale_factor y).
  transitivity
    (rsum n (fun j => rsum n (fun i =>
       ky j * (kx i * clamped input (i + bx) (j + by_) c)))).
  - apply rsum_ext. intros j _. now rewrite rsum_scal_l.
  - rewrite rsum_exchange. apply rsum_ext. intros i _.
    rewrite <- rsum_scal_l. apply rsum_ext. intros j _. ring.
Qed.

End Separable.

(** ** Range of the output *)

Section PartialPipeline.

Variable interpolation_type : InterpolationType.
Variable upsample : bool.
Variable input : Buffer.
Variable scale_factor : R.

Lemma partial_rsum_some n (f : Z -> option R) (g : Z -> R) :
  (forall k, (0 <= k < n)%Z -> f k = Some (g k)) ->
  Partial.rsum n f = Some (rsum n g).
Proof.
  unfold Partial.rsum, rsum. intros H.
  assert (Hl : forall k, In k (rdom n) -> f k = Some (g k))
    by (intros k Hk; apply H, rdom_In, Hk).
  clear H. generalize 0. revert Hl.
  induction (rdom n) as [|k l IH]; intros Hl a; [reflexivity|].
  simpl. rewrite (Hl k) by apply in_eq. simpl.
  apply IH. intros j Hj. apply Hl. now apply in_cons.
Qed.

Lemma partial_div_some a b : b <> 0 -> Partial.div a b = Some (a / b).
Proof. intros H. unfold Partial.div. now rewrite Reqb_false. Qed.

(** Where the two kernel sums are not zero, every expression of the
    pipeline denotes a real number, the one the total reading gives. *)
Lemma partial_output_some x y c :
  kernel_sum_x interpolation_type upsample scale_factor x <> 0 ->
  kernel_sum_y interpolation_type upsample scale_factor y <> 0 ->
  Partial.output interpolation_type upsample input scale_factor x y c
  = Some (output interpolation_type upsample input scale_factor x y c).
Proof.
  intros Hx Hy.
  assert (Kx : forall k,
             Partial.kernel_x interpolation_type upsample scale_factor x k
             = Some (kernel_x interpolation_type upsample scale_factor x k))
    by (intros k; now apply partial_div_some).
  assert (Ky : forall k,
             Partial.kernel_y interpolation_type upsample scale_factor y k
             = Some (kernel_y interpolation_type upsample scale_factor y k))
    by (intros k; now apply partial_div_some).
  unfold Partial.output, output. destruct upsample.
  - unfold Partial.resized_y_up, resized_y_up.
    erewrite partial_rsum_some; [reflexivity|].
    intros j _. rewrite Ky.
    unfold Partial.resized_x_up.
    erewrite partial_rsum_some; [reflexivity|].
    intros i _. now rewrite Kx.
  - unfold Partial.resized_x_down, resized_x_down.
    erewrite partial_rsum_some; [reflexivity|].
    intros i _. rewrite Kx.
    unfold Partial.resized_y_down.
    erewrite partial_rsum_some; [reflexivity|].
    intros j _. now rewrite Ky.
Qed.

End PartialPipeline.

(** C5, counterexample: box kernel, [upsample = false], [scale_factor =
    4], output coordinate (0, 0, 0) of the checkerboard image.  The
    kernel sum is zero, the single weight is the quotient [0 / 0], and
    the value handed to the final clamp is not a real number: no sample
    of [0, 1] is produced. *)
Lemma output_of_zero_kernel_sum :
  0 < 4
  /\ kernel_sum_x Box false 4 0 = 0
  /\ Partial.kernel_x Box false 4 0 0 = None
  /\ Partial.output Box false checkerboard 4 0 0 0 = None
  /\ ~ (exists v,
          Partial.output Box false checkerboard 4 0 0 0 = Some v
          /\ 0 <= v <= 1).
Proof.
  assert (Hs : kernel_sum_x Box false 4 0 = 0).
  { unfold kernel_sum_x, unnormalized_kernel_x, beginx, sourcex,
      kernel_taps, kernel_radius, kernel_scaling, info.
    cbn [kernel_info taps kernel].
    rewrite (ceilZ_unique (1 / 4) 1) by lra.
    rewrite (ceilZ_unique ((0 + 0.5) / 4 - 0.5 - 0.5 * 1 / 4) 0) by lra.
    rewrite rsum_1. cbn [Z.add].
    apply kernel_box_outside. rewrite Rabs_pos_eq; lra. }
  assert (Hk : Partial.kernel_x Box false 4 0 0 = None).
  { unfold Partial.kernel_x, Partial.div. rewrite Hs.
    now rewrite Reqb_true. }
  assert (Ho : Partial.output Box false checkerboard 4 0 0 0 = None).
  { unfold Partial.output, Partial.resized_x_down.
    replace (kernel_taps Box false 4) with 1%Z
      by (symmetry; apply ceilZ_unique; simpl; lra).
    unfold Partial.rsum. simpl. now rewrite Hk. }
  repeat split; try assumption; try lra.
  intros [v [Hv _]]. rewrite Ho in Hv. discriminate.
Qed.

(** C5, amended: for every input buffer, positive scale factor, kernel
    and [upsample] setting, at every output coordinate whose two kernel
    sums are not zero the output is a real number of [0, 1]: the final
    [clamp] is applied on both branches, so any overshoot of the weighted
    sums is brought back into the interval. *)
Theorem output_in_unit_interval
        (interpolation_type : InterpolationType) (upsample : bool)
        (input : Buffer) (scale_factor : R) (x y c : Z) :
  0 < scale_factor ->
  kernel_sum_x interpolation_type upsample scale_factor x <> 0 ->
  kernel_sum_y interpolation_type upsample scale_factor y <> 0 ->
  exists v,
    Partial.output interpolation_type upsample input scale_factor x y c
    = Some v
    /\ v = output interpolation_type upsample input scale_factor x y c
    /\ 0 <= v <= 1.
Proof.
  intros _ Hx Hy.
  exists (output interpolation_type upsample input scale_factor x y c).
  split; [now apply partial_output_some|]. split; [reflexivity|].
  unfold output. destruct upsample; apply clamp_bounds; lra.
Qed.

(** ** Channels *)

Section Channels.

Variable interpolation_type : InterpolationType.
Variable upsample : bool.
Variable scale_factor : R.
Variables input1 input2 : Buffer.
Variable c : Z.

Hypothesis same_x_min : x_min input1 = x_min input2.
Hypothesis same_x_extent : x_extent input1 = x_extent input2.
Hypothesis same_y_min : y_min input1 = y_min input2.
Hypothesis same_y_extent : y_extent input1 = y_extent input2.
Hypothesis x_nonempty : (0 < x_extent input1)%Z.
Hypothesis y_nonempty : (0 < y_extent input1)%Z.
Hypothesis agree_on_c :
  forall x y,
    in_range (x_min input1) (x_extent input1) x = true ->
    in_range (y_min input1) (y_extent input1) y = true ->
    data input1 x y c = data input2 x y c.

Lemma repeat_edge_coord_in_range lo extent i :
  (0 < extent)%Z -> in_range lo extent (repeat_edge_coord lo extent i) = true.
Proof.
  intros H. unfold in_range, repeat_edge_coord, clampZ.
  apply andb_true_intro. split; [apply Z.leb_le | apply Z.ltb_lt]; lia.
Qed.

Lemma clamped_agree x y : clamped input1 x y c = clamped input2 x y c.
Proof.
  unfold clamped, repeat_edge.
  rewrite <- same_x_min, <- same_x_extent, <- same_y_min, <- same_y_extent.
  apply agree_on_c; now apply repeat_edge_coord_in_range.
Qed.

Lemma output_agree x y :
  output interpolation_type upsample input1 scale_factor x y c
  = output interpolation_type upsample input2 scale_factor x y c.
Proof.
  unfold output, resized_y_up, resized_x_down, resized_x_up, resized_y_down.
  destruct upsample; f_equal;
    apply rsum_ext; intros j _; f_equal;
    apply rsum_ext; intros i _; f_equal; apply clamped_agree.
Qed.

End Channels.

(** C10: channels never mix.  The weight tables [kernel_x] and [kernel_y]
    take the configuration, one output coordinate and the tap index, and
    nothing else; and for two input buffers of the same geometry that
    agree on channel [c] at every coordinate of the buffer, the outputs
    agree on channel [c] at every output coordinate, whatever the other
    channels hold. *)
Theorem channels_never_mix
        (interpolation_type : InterpolationType) (upsample : bool)
        (scale_factor : R) (input1 input2 : Buffer) (c : Z) :
  x_min input1 = x_min input2 ->
  x_extent input1 = x_extent input2 ->
  y_min input1 = y_min input2 ->
  y_extent input1 = y_extent input2 ->
  (0 < x_extent input1)%Z ->
  (0 < y_extent input1)%Z ->
  (forall x y,
      in_range (x_min input1) (x_extent input1) x = true ->
      in_range (y_min input1) (y_extent input1) y = true ->
      data input1 x y c = data input2 x y c) ->
  forall x y,
    output interpolation_type upsample input1 scale_factor x y c
    = output interpolation_type upsample input2 scale_factor x y c.
Proof.
  intros. now apply output_agree.
Qed.

Lemma channels_never_mix_witness :
  output Cubic false two_channel_a 0.5 3 5 0
  = output Cubic false two_channel_b 0.5 3 5 0.
Proof.
  apply channels_never_mix; try reflexivity.
Defined.

(** ** The boundary handler *)

(** At a coordinate of the buffer the view is the sample itself. *)
Lemma clamped_in_bounds (input : Buffer) (x y c : Z) :
  in_bounds input x y c = true -> clamped input x y c = data input x y c.
Proof.
  unfold in_bounds, in_range. intros Hin.
  apply andb_prop in Hin. destruct Hin as [Hin _].
  apply andb_prop in Hin. destruct Hin as [Hinx Hiny].
  apply andb_prop in Hinx. apply andb_prop in Hiny.
  destruct Hinx as [X1 X2]. destruct Hiny as [Y1 Y2].
  apply Z.leb_le in X1, Y1. apply Z.ltb_lt in X2, Y2.
  unfold clamped, repeat_edge, repeat_edge_coord.
  rewrite !clampZ_id by lia. reflexivity.
Qed.

(** C7: on a buffer with at least one sample per axis and for a channel
    index of the buffer, the boundary handler reads the buffer at the
    coordinate whose x and y are the nearest indices of the valid ranges
    and whose channel is unchanged: the read is inside the buffer (the
    checked read succeeds, with the value the view returns), and at a
    coordinate of the buffer the view is the sample itself.  The view is
    a function of the buffer: nothing is written. *)
Theorem clamped_reads_inside (input : Buffer) (x y c : Z) :
  (0 < x_extent input)%Z ->
  (0 < y_extent input)%Z ->
  in_range (c_min input) (c_extent input) c = true ->
  let x' := repeat_edge_coord (x_min input) (x_extent input) x in
  let y' := repeat_edge_coord (y_min input) (y_extent input) y in
  (x_min input <= x' <= x_min input + x_extent input - 1)%Z
  /\ (y_min input <= y' <= y_min input + y_extent input - 1)%Z
  /\ x' = (if (x <? x_min input)%Z then x_min input
           else if (x_min input + x_extent input - 1 <? x)%Z
                then (x_min input + x_extent input - 1)%Z else x)
  /\ y' = (if (y <? y_min input)%Z then y_min input
           else if (y_min input + y_extent input - 1 <? y)%Z
                then (y_min input + y_extent input - 1)%Z else y)
  /\ buffer_read input x' y' c = Some (clamped input x y c)
  /\ (in_bounds input x y c = true -> clamped input x y c = data input x y c).
Proof.
  intros Hx Hy Hc x' y'.
  assert (Bx : (x_min input <= x' <= x_min input + x_extent input - 1)%Z)
    by (apply clampZ_bounds; lia).
  assert (By : (y_min input <= y' <= y_min input + y_extent input - 1)%Z)
    by (apply clampZ_bounds; lia).
  repeat split; try tauto.
  - subst x'. unfold repeat_edge_coord, clampZ.
    destruct (Z.ltb_spec x (x_min input));
      destruct (Z.ltb_spec (x_min input + x_extent input - 1) x); lia.
  - subst y'. unfold repeat_edge_coord, clampZ.
    destruct (Z.ltb_spec y (y_min input));
      destruct (Z.ltb_spec (y_min input + y_extent input - 1) y); lia.
  - unfold buffer_read, in_bounds. subst x' y'.
    rewrite !repeat_edge_coord_in_range, Hc by assumption. reflexivity.
  - apply clamped_in_bounds.
Qed.

Lemma clamped_reads_inside_witness :
  buffer_read two_channel_a 0 0 1 = Some (clamped two_channel_a (-7) 9 1).
Proof.
  apply (clamped_reads_inside two_channel_a (-7) 9 1); reflexivity.
Defined.

(** ** The [upsample] flag *)

(** Evaluates [ceilZ] on a closed argument, given its value. *)
Ltac ceil_is n :=
  match goal with
  | |- context [ceilZ ?r] =>
      rewrite (ceilZ_unique r n) by (simpl; split; lra)
  end.

Ltac box_inside :=
  match goal with
  | |- context [kernel_box ?t] =>
      rewrite (kernel_box_inside t) by (apply Rabs_le; lra)
  end.

Ltac box_outside :=
  match goal with
  | |- context [kernel_box ?t] =>
      rewrite (kernel_box_outside t)
        by (unfold Rabs; destruct (Rcase_abs _); lra)
  end.

Ltac unfold_generator :=
  unfold output, resized_y_up, resized_x_up, resized_x_down, resized_y_down,
    kernel_x, kernel_y, kernel_sum_x, kernel_sum_y,
    unnormalized_kernel_x, unnormalized_kernel_y, beginx, beginy,
    sourcex, sourcey, kernel_taps, kernel_radius, kernel_scaling, info;
  cbn [kernel_info taps kernel].

Lemma step_upsample_true : output Box true step_image 0.5 0 0 0 = 0.
Proof.
  unfold_generator.
  repeat ceil_is 1%Z. repeat ceil_is 0%Z.
  rewrite !rsum_1. cbn [Z.add]. repeat box_inside.
  unfold clamped, repeat_edge. simpl. rewrite clamp_id; lra.
Qed.

Lemma step_upsample_false : output Box false step_image 0.5 0 0 0 = 0.5.
Proof.
  unfold_generator.
  repeat ceil_is 2%Z. repeat ceil_is 0%Z.
  rewrite !rsum_2. cbn [Z.add Pos.add]. repeat box_inside.
  unfold clamped, repeat_edge. simpl. rewrite clamp_id; lra.
Qed.

(** C4, counterexample: the same image, scale factor and kernel give
    different outputs under the two settings of [upsample]: with the flag
    set the box kernel keeps its single tap, without it the kernel is
    widened to two taps of weight one half. *)
Lemma upsample_flag_changes_output :
  output Box true step_image 0.5 0 0 0 = 0
  /\ output Box false step_image 0.5 0 0 0 = 0.5
  /\ output Box true step_image 0.5 0 0 0
     <> output Box false step_image 0.5 0 0 0.
Proof.
  rewrite step_upsample_true, step_upsample_false.
  repeat split; lra.
Qed.

(** C4, amended: the order of the two passes never changes the result:
    with the weight tables of either setting of [upsample], filtering
    along x then y equals filtering along y then x at every output
    coordinate; the flag also selects the kernel scaling, and at
    [scale_factor = 1], where both settings scale the kernel by [1], the
    two pipelines produce the same output. *)
Theorem separable_order_irrelevant
        (interpolation_type : InterpolationType) (upsample : bool)
        (input : Buffer) (scale_factor : R) (x y c : Z) :
  clamp (resized_y_up interpolation_type upsample input scale_factor x y c)
        0 1
  = clamp (resized_x_down interpolation_type upsample input scale_factor
                          x y c) 0 1
  /\ output interpolation_type true input 1 x y c
     = output interpolation_type false input 1 x y c.
Proof.
  split.
  - now rewrite resized_orders_agree.
  - unfold output.
    rewrite (resized_orders_agree interpolation_type true input 1 x y c).
    reflexivity.
Qed.

(** ** Identity scale *)

Section IdentityScale.

Variable interpolation_type : InterpolationType.
Variable upsample : bool.
Variable input : Buffer.

Lemma kernel_scaling_1 : kernel_scaling upsample 1 = 1.
Proof. now destruct upsample. Qed.

Lemma kernel_taps_1 :
  kernel_taps interpolation_type upsample 1
  = taps (kernel_info interpolation_type).
Proof.
  unfold kernel_taps. rewrite kernel_scaling_1.
  apply ceilZ_unique. lra.
Qed.

Lemma sourcex_1 x : sourcex 1 x = IZR x.
Proof. unfold sourcex. lra. Qed.

Lemma beginx_1 x :
  beginx interpolation_type upsample 1 x
  = (x - centre_tap interpolation_type)%Z.
Proof.
  unfold beginx, kernel_radius. rewrite kernel_scaling_1, sourcex_1.
  apply ceilZ_unique. rewrite minus_IZR.
  unfold centre_tap.
  destruct interpolation_type; cbn [kernel_info taps];
    match goal with
    | |- context [IZR (?a / ?b)] =>
        let v := eval compute in (a / b)%Z in change (a / b)%Z with v
    end; lra.
Qed.

Lemma unnormalized_kernel_x_1 x k :
  unnormalized_kernel_x interpolation_type upsample 1 x k
  = kernel (kernel_info interpolation_type)
           (IZR (k - centre_tap interpolation_type)).
Proof.
  unfold unnormalized_kernel_x, info.
  rewrite kernel_scaling_1, sourcex_1, beginx_1. f_equal.
  rewrite minus_IZR, plus_IZR, minus_IZR. lra.
Qed.

Lemma kernel_box_0 : kernel_box 0 = 1.
Proof. apply kernel_box_inside. rewrite Rabs_R0. lra. Qed.

Lemma kernel_linear_0 : kernel_linear 0 = 1.
Proof. rewrite kernel_linear_inside; rewrite Rabs_R0; lra. Qed.

Lemma kernel_linear_m1 : kernel_linear (-1) = 0.
Proof.
  apply kernel_linear_outside. change (-1) with (Ropp 1).
  rewrite Rabs_Ropp, Rabs_R1. lra.
Qed.

Lemma kernel_cubic_0 : kernel_cubic 0 = 1.
Proof. rewrite kernel_cubic_inner; rewrite Rabs_R0; lra. Qed.

Lemma kernel_cubic_m1 : kernel_cubic (-1) = 0.
Proof.
  change (-1) with (Ropp 1). rewrite kernel_cubic_even. apply kernel_cubic_1.
Qed.

Lemma kernel_cubic_m2 : kernel_cubic (-2) = 0.
Proof.
  change (-2) with (Ropp 2). rewrite kernel_cubic_even. apply kernel_cubic_2.
Qed.

(** At scale 1 the unnormalised weights are [1] on the centre tap and
    [0] on the others. *)
Lemma unnormalized_kernel_x_1_delta x k :
  (0 <= k < taps (kernel_info interpolation_type))%Z ->
  unnormalized_kernel_x interpolation_type upsample 1 x k
  = if (k =? centre_tap interpolation_type)%Z then 1 else 0.
Proof.
  intros Hk. rewrite unnormalized_kernel_x_1. unfold centre_tap.
  destruct interpolation_type; cbn [kernel_info taps kernel] in *.
  - assert (k = 0)%Z as -> by lia. apply kernel_box_0.
  - assert (k = 0 \/ k = 1)%Z as [-> | ->] by lia;
      [apply kernel_linear_m1 | apply kernel_linear_0].
  - assert (k = 0 \/ k = 1 \/ k = 2 \/ k = 3)%Z
      as [-> | [-> | [-> | ->]]] by lia;
      [ apply kernel_cubic_m2 | apply kernel_cubic_m1
      | apply kernel_cubic_0 | apply kernel_cubic_1 ].
  - destruct (Z.eqb_spec k (6 / 2)) as [-> | Hne].
    + apply kernel_lanczos_0.
    + apply kernel_lanczos_integer. change (6 / 2)%Z with 3%Z in *. lia.
Qed.

(** A sum against the indicator of one point of the domain. *)
Lemma accumulate_delta (f : Z -> R) (h : Z) l :
  NoDup l ->
  accumulate (fun k => (if (k =? h)%Z then 1 else 0) * f k) l 0
  = if in_dec Z.eq_dec h l then f h else 0.
Proof.
  induction l as [|j l IH]; intros Hnd; [reflexivity|].
  inversion Hnd as [|? ? Hnotin Hnd']; subst.
  rewrite accumulate_cons, IH by assumption.
  destruct (Z.eqb_spec j h) as [-> | Hne].
  - destruct (in_dec Z.eq_dec h l); [contradiction|].
    destruct (in_dec Z.eq_dec h (h :: l)) as [_ | n'];
      [lra | exfalso; apply n'; apply in_eq].
  - destruct (in_dec Z.eq_dec h l) as [Hin | Hnin];
      destruct (in_dec Z.eq_dec h (j :: l)) as [Hin' | Hnin'];
      try lra.
    + exfalso. apply Hnin'. now apply in_cons.
    + exfalso. destruct Hin' as [E | Hin']; [now apply Hne | now apply Hnin].
Qed.

Lemma rdom_NoDup n : NoDup (rdom n).
Proof.
  unfold rdom. apply Injective_map_NoDup.
  - intros a b. apply Nat2Z.inj.
  - apply seq_NoDup.
Qed.

Lemma rsum_delta n (f : Z -> R) (h : Z) :
  (0 <= h < n)%Z ->
  rsum n (fun k => (if (k =? h)%Z then 1 else 0) * f k) = f h.
Proof.
  intros Hh. rewrite rsum_accumulate, accumulate_delta by apply rdom_NoDup.
  destruct (in_dec Z.eq_dec h (rdom n)) as [_ | Hn]; [reflexivity|].
  exfalso. apply Hn. now apply rdom_In.
Qed.

Lemma centre_tap_range :
  (0 <= centre_tap interpolation_type
   < taps (kernel_info interpolation_type))%Z.
Proof.
  unfold centre_tap.
  destruct interpolation_type; cbn [kernel_info taps];
    split; (apply Z.leb_le || apply Z.ltb_lt); reflexivity.
Qed.

Lemma kernel_sum_x_1 x : kernel_sum_x interpolation_type upsample 1 x = 1.
Proof.
  unfold kernel_sum_x. rewrite kernel_taps_1.
  rewrite (rsum_ext _ _
             (fun k => (if (k =? centre_tap interpolation_type)%Z
                        then 1 else 0) * 1)).
  - now rewrite rsum_delta by apply centre_tap_range.
  - intros k Hk. rewrite unnormalized_kernel_x_1_delta by assumption. lra.
Qed.

Lemma kernel_x_1 x k :
  (0 <= k < taps (kernel_info interpolation_type))%Z ->
  kernel_x interpolation_type upsample 1 x k
  = if (k =? centre_tap interpolation_type)%Z then 1 else 0.
Proof.
  intros Hk. unfold kernel_x.
  rewrite kernel_sum_x_1, unnormalized_kernel_x_1_delta by assumption. lra.
Qed.

(** [kernel_y] is [kernel_x] read along the other axis. *)
Lemma kernel_y_is_kernel_x s y k :
  kernel_y interpolation_type upsample s y k
  = kernel_x interpolation_type upsample s y k.
Proof. reflexivity. Qed.

Lemma beginy_is_beginx s y :
  beginy interpolation_type upsample s y
  = beginx interpolation_type upsample s y.
Proof. reflexivity. Qed.

(** One filtering pass at scale 1 returns the sample it is centred on. *)
Lemma pass_1 (g : Z -> R) x :
  rsum (kernel_taps interpolation_type upsample 1)
       (fun r => kernel_x interpolation_type upsample 1 x r
                 * g (r + beginx interpolation_type upsample 1 x)%Z)
  = g x.
Proof.
  rewrite kernel_taps_1.
  rewrite (rsum_ext _ _
             (fun k => (if (k =? centre_tap interpolation_type)%Z then 1 else 0)
                       * g (k + (x - centre_tap interpolation_type))%Z)).
  - rewrite rsum_delta by apply centre_tap_range. f_equal. lia.
  - intros k Hk. now rewrite kernel_x_1, beginx_1.
Qed.

Lemma resized_1 x y c :
  resized_y_up interpolation_type upsample input 1 x y c
  = clamped input x y c.
Proof.
  unfold resized_y_up.
  rewrite (rsum_ext _ _
             (fun r => kernel_x interpolation_type upsample 1 y r
                       * (fun y' => clamped input x y' c)
                           (r + beginx interpolation_type upsample 1 y)%Z)).
  - apply (pass_1 (fun y' => clamped input x y' c)).
  - intros k _. rewrite kernel_y_is_kernel_x, beginy_is_beginx. f_equal.
    unfold resized_x_up.
    apply (pass_1 (fun x' => clamped input x' (k + _)%Z c)).
Qed.

End IdentityScale.

Lemma output_in_unit_interval_witness :
  0 < 1
  /\ kernel_sum_x Cubic false 1 0 <> 0
  /\ kernel_sum_y Cubic false 1 1 <> 0
  /\ exists v,
       Partial.output Cubic false checkerboard 1 0 1 0 = Some v
       /\ v = output Cubic false checkerboard 1 0 1 0
       /\ 0 <= v <= 1.
Proof.
  assert (Hx : kernel_sum_x Cubic false 1 0 <> 0)
    by (rewrite kernel_sum_x_1; lra).
  assert (Hy : kernel_sum_y Cubic false 1 1 <> 0)
    by (change (kernel_sum_x Cubic false 1 1 <> 0);
        rewrite kernel_sum_x_1; lra).
  split; [exact Rlt_0_1|]. split; [exact Hx|]. split; [exact Hy|].
  exact (output_in_unit_interval Cubic false checkerboard 1 0 1 0
                                 Rlt_0_1 Hx Hy).
Defined.

(** C3: with [scale_factor = 1], for each of the four kernels and either
    setting of [upsample], and for an input whose samples lie in [0, 1],
    the output equals the input at every coordinate of the input buffer
    (exactly, in real arithmetic). *)
Theorem identity_scale
        (interpolation_type : InterpolationType) (upsample : bool)
        (input : Buffer) (x y c : Z) :
  (forall x y c,
      in_bounds input x y c = true -> 0 <= data input x y c <= 1) ->
  in_bounds input x y c = true ->
  output interpolation_type upsample input 1 x y c = data input x y c.
Proof.
  intros Hunit Hin.
  assert (E : output interpolation_type upsample input 1 x y c
              = clamp (clamped input x y c) 0 1).
  { unfold output. rewrite <- resized_orders_agree, resized_1.
    now destruct upsample. }
  rewrite E, clamped_in_bounds by assumption.
  apply clamp_id. now apply Hunit.
Qed.

Lemma identity_scale_witness :
  output Lanczos false two_channel_a 1 0 0 1 = data two_channel_a 0 0 1.
Proof.
  apply identity_scale.
  - intros x y c _. simpl. destruct (c =? 0)%Z; lra.
  - reflexivity.
Defined.

(** ** The box kernel at scale 2 *)

(** One box-filtering pass at scale 2 picks the sample at half the output
    coordinate, under either setting of [upsample]. *)
Lemma box_pass_2 (upsample : bool) (g : Z -> R) (x : Z) :
  (0 <= x < 4)%Z ->
  rsum (kernel_taps Box upsample 2)
       (fun r => kernel_x Box upsample 2 x r
                 * g (r + beginx Box upsample 2 x)%Z)
  = g (x / 2)%Z.
Proof.
  intros Hx.
  assert (x = 0 \/ x = 1 \/ x = 2 \/ x = 3)%Z as [-> | [-> | [-> | ->]]] by lia;
    destruct upsample; unfold_generator;
    repeat ceil_is 1%Z; repeat ceil_is 0%Z;
    rewrite !rsum_1; cbn [Z.add]; repeat box_inside;
    match goal with
    | |- context [g (?a / ?b)%Z] =>
        let v := eval compute in (a / b)%Z in change (a / b)%Z with v
    end; lra.
Qed.

(** C9: the 2x2 single-channel image [[0, 1], [1, 0]] resized by the
    box kernel at [scale_factor = 2] gives, on the 4x4 output, the input
    pixel of the enclosing 2x2 block at every coordinate: output (x, y)
    is input (x / 2, y / 2).  It holds in the upsampling pipeline and
    also in the other one. *)
Theorem box_upsample_2_nearest (upsample : bool) (x y : Z) :
  (0 <= x < 4)%Z ->
  (0 <= y < 4)%Z ->
  output Box upsample checkerboard 2 x y 0
  = data checkerboard (x / 2) (y / 2) 0.
Proof.
  intros Hx Hy.
  assert (E : output Box upsample checkerboard 2 x y 0
              = clamp (clamped checkerboard (x / 2) (y / 2) 0) 0 1).
  { unfold output. rewrite <- resized_orders_agree.
    replace (resized_y_up Box upsample checkerboard 2 x y 0)
      with (clamped checkerboard (x / 2) (y / 2) 0);
      [now destruct upsample|].
    unfold resized_y_up.
    rewrite (rsum_ext _ _
               (fun r => kernel_x Box upsample 2 y r
                         * (fun y' => clamped checkerboard (x / 2) y' 0)
                             (r + beginx Box upsample 2 y)%Z)).
    - symmetry.
      apply (box_pass_2 upsample
               (fun y' => clamped checkerboard (x / 2) y' 0) y Hy).
    - intros k _. rewrite kernel_y_is_kernel_x, beginy_is_beginx. f_equal.
      unfold resized_x_up.
      apply (box_pass_2 upsample
               (fun x' => clamped checkerboard x' (k + _)%Z 0) x Hx). }
  rewrite E, clamped_in_bounds.
  - apply clamp_id. simpl. destruct (x / 2 =? y / 2)%Z; lra.
  - unfold in_bounds, in_range. simpl.
    assert (0 <= x / 2 < 2)%Z
      by (split; [apply Z.div_pos | apply Z.div_lt_upper_bound]; lia).
    assert (0 <= y / 2 < 2)%Z
      by (split; [apply Z.div_pos | apply Z.div_lt_upper_bound]; lia).
    repeat (apply andb_true_intro; split);
      (apply Z.leb_le || apply Z.ltb_lt); lia.
Qed.

Lemma box_upsample_2_nearest_witness :
  output Box true checkerboard 2 3 0 0 = 1.
Proof.
  apply (box_upsample_2_nearest true 3 0); lia.
Defined.

(** ** The kernel sum *)

Section KernelSum.

Variable interpolation_type : InterpolationType.
Variable upsample : bool.
Variable scale_factor : R.

Lemma first_offset_bounds x :
  - kernel_radius interpolation_type upsample scale_factor
  <= first_offset interpolation_type upsample scale_factor x
  < - kernel_radius interpolation_type upsample scale_factor + 1.
Proof.
  unfold first_offset, beginx.
  destruct (ceilZ_spec
              (sourcex scale_factor x
               - kernel_radius interpolation_type upsample scale_factor)).
  lra.
Qed.

Lemma unnormalized_kernel_x_offset x k :
  unnormalized_kernel_x interpolation_type upsample scale_factor x k
  = kernel (kernel_info interpolation_type)
           ((IZR k
             + first_offset interpolation_type upsample scale_factor x)
            * kernel_scaling upsample scale_factor).
Proof.
  unfold unnormalized_kernel_x, first_offset, info.
  rewrite plus_IZR. f_equal. ring.
Qed.

(** Dividing the weights by their sum makes them sum to one, as soon as
    that sum is not zero. *)
Lemma kernel_x_sum x :
  kernel_sum_x interpolation_type upsample scale_factor x <> 0 ->
  rsum (kernel_taps interpolation_type upsample scale_factor)
       (fun k => kernel_x interpolation_type upsample scale_factor x k)
  = 1.
Proof.
  intros Hnz. unfold kernel_x, Rdiv. rewrite rsum_scal.
  change (kernel_sum_x interpolation_type upsample scale_factor x
          * / kernel_sum_x interpolation_type upsample scale_factor x = 1).
  now apply Rinv_r.
Qed.

(** When the sum is zero the normalised weights sum to zero. *)
Lemma kernel_x_sum_degenerate x :
  kernel_sum_x interpolation_type upsample scale_factor x = 0 ->
  rsum (kernel_taps interpolation_type upsample scale_factor)
       (fun k => kernel_x interpolation_type upsample scale_factor x k)
  = 0.
Proof.
  intros Hz. unfold kernel_x, Rdiv. rewrite rsum_scal.
  change (kernel_sum_x interpolation_type upsample scale_factor x
          * / kernel_sum_x interpolation_type upsample scale_factor x = 0).
  rewrite Hz. apply Rmult_0_l.
Qed.

End KernelSum.

(** *** Upsampling: the taps are one pixel apart *)

Section Upsampling.

Variable scale_factor : R.
Variable x : Z.

Lemma kernel_sum_x_box_up : kernel_sum_x Box true scale_factor x = 1.
Proof.
  pose proof (first_offset_bounds Box true scale_factor x) as Hd.
  unfold kernel_sum_x.
  replace (kernel_taps Box true scale_factor) with 1%Z
    by (symmetry; apply ceilZ_unique; simpl; lra).
  rewrite rsum_1, unnormalized_kernel_x_offset.
  unfold kernel_radius, kernel_scaling in *. cbn [kernel_info taps kernel] in *.
  apply kernel_box_inside, Rabs_le. lra.
Qed.

Lemma kernel_sum_x_linear_up : kernel_sum_x Linear true scale_factor x = 1.
Proof.
  pose proof (first_offset_bounds Linear true scale_factor x) as Hd.
  unfold kernel_sum_x.
  replace (kernel_taps Linear true scale_factor) with 2%Z
    by (symmetry; apply ceilZ_unique; simpl; lra).
  rewrite rsum_2, !unnormalized_kernel_x_offset.
  unfold kernel_radius, kernel_scaling in *. cbn [kernel_info taps kernel] in *.
  set (d := first_offset Linear true scale_factor x) in *.
  assert (K1 : kernel_linear ((1 + d) * 1) = - d).
  { rewrite kernel_linear_inside; rewrite Rabs_pos_eq; lra. }
  assert (K0 : kernel_linear ((0 + d) * 1) = 1 + d).
  { destruct (Req_dec_T d (-1)) as [E | NE].
    - rewrite kernel_linear_outside; rewrite ?E, ?Rabs_left; lra.
    - rewrite kernel_linear_inside; rewrite Rabs_left; lra. }
  rewrite K0, K1. lra.
Qed.

Lemma kernel_cubic_inner_le t :
  Rabs t <= 1 ->
  kernel_cubic t = 1.5 * (Rabs t * Rabs t * Rabs t)
                   - 2.5 * (Rabs t * Rabs t) + 1.
Proof.
  intros [H | H]; [now apply kernel_cubic_inner|].
  rewrite kernel_cubic_outer, H by lra. lra.
Qed.

Lemma kernel_cubic_outer_le t :
  1 <= Rabs t <= 2 ->
  kernel_cubic t = -0.5 * (Rabs t * Rabs t * Rabs t)
                   + 2.5 * (Rabs t * Rabs t) - 4 * Rabs t + 2.
Proof.
  intros [H1 [H | H]]; [now apply kernel_cubic_outer|].
  rewrite kernel_cubic_outside, H by lra. lra.
Qed.

Lemma kernel_sum_x_cubic_up : kernel_sum_x Cubic true scale_factor x = 1.
Proof.
  pose proof (first_offset_bounds Cubic true scale_factor x) as Hd.
  unfold kernel_sum_x.
  replace (kernel_taps Cubic true scale_factor) with 4%Z
    by (symmetry; apply ceilZ_unique; simpl; lra).
  rewrite rsum_4, !unnormalized_kernel_x_offset.
  unfold kernel_radius, kernel_scaling in *. cbn [kernel_info taps kernel] in *.
  set (d := first_offset Cubic true scale_factor x) in *.
  rewrite (kernel_cubic_outer_le ((0 + d) * 1)),
          (kernel_cubic_inner_le ((1 + d) * 1)),
          (kernel_cubic_inner_le ((2 + d) * 1)),
          (kernel_cubic_outer_le ((3 + d) * 1)).
  - rewrite (Rabs_left ((0 + d) * 1)), (Rabs_left ((1 + d) * 1)),
            (Rabs_pos_eq ((2 + d) * 1)), (Rabs_pos_eq ((3 + d) * 1)) by lra.
    decimals. field.
  - rewrite Rabs_pos_eq; lra.
  - rewrite Rabs_pos_eq; lra.
  - rewrite Rabs_left; lra.
  - rewrite Rabs_left; lra.
Qed.

Lemma kernel_sum_y_cubic_up : kernel_sum_y Cubic true scale_factor x = 1.
Proof. exact kernel_sum_x_cubic_up. Qed.

End Upsampling.

(** *** Overshoot of the cubic kernel *)

(** The clamp is not idle: on the edge image, upsampling by 2 with the
    cubic kernel produces the weighted sum [-9/128] at output (4, 0),
    through the negative lobe of the kernel; the output there is [0]. *)
Lemma cubic_undershoot_clamped :
  resized_y_up Cubic true edge_image 2 4 0 0 = - (9 / 128)
  /\ output Cubic true edge_image 2 4 0 0 = 0.
Proof.
  assert (Wx : forall k,
             kernel_x Cubic true 2 4 k = kernel_cubic (IZR k - 1.75)).
  { intros k. unfold kernel_x. rewrite kernel_sum_x_cubic_up.
    unfold unnormalized_kernel_x, beginx, sourcex, kernel_radius,
      kernel_scaling, info.
    cbn [kernel_info taps kernel]. ceil_is 0%Z.
    rewrite Z.add_0_r. unfold Rdiv at 1. rewrite Rinv_1, Rmult_1_r.
    f_equal. lra. }
  assert (Wy : forall k,
             kernel_y Cubic true 2 0 k = kernel_cubic (IZR k - 1.75)).
  { intros k. unfold kernel_y. rewrite kernel_sum_y_cubic_up.
    unfold unnormalized_kernel_y, beginy, sourcey, kernel_radius,
      kernel_scaling, info.
    cbn [kernel_info taps kernel]. ceil_is (-2)%Z.
    unfold Rdiv at 1. rewrite Rinv_1, Rmult_1_r.
    f_equal. rewrite plus_IZR. lra. }
  assert (K0 : kernel_cubic (0 - 1.75) = - (3 / 128)).
  { rewrite kernel_cubic_outer; rewrite Rabs_left by lra;
      [decimals; field | lra]. }
  assert (K1 : kernel_cubic (1 - 1.75) = 29 / 128).
  { rewrite kernel_cubic_inner; rewrite Rabs_left by lra;
      [decimals; field | lra]. }
  assert (K2 : kernel_cubic (2 - 1.75) = 111 / 128).
  { rewrite kernel_cubic_inner; rewrite Rabs_pos_eq by lra;
      [decimals; field | lra]. }
  assert (K3 : kernel_cubic (3 - 1.75) = - (9 / 128)).
  { rewrite kernel_cubic_outer; rewrite Rabs_pos_eq by lra;
      [decimals; field | lra]. }
  assert (T : kernel_taps Cubic true 2 = 4%Z).
  { unfold kernel_taps, kernel_scaling. cbn [kernel_info taps].
    apply ceilZ_unique. lra. }
  assert (Bx : beginx Cubic true 2 4 = 0%Z).
  { unfold beginx, sourcex, kernel_radius, kernel_scaling.
    cbn [kernel_info taps]. apply ceilZ_unique. lra. }
  assert (Rx : forall y', resized_x_up Cubic true edge_image 2 4 y' 0
                          = - (9 / 128)).
  { intros y'. unfold resized_x_up. rewrite T, rsum_4, !Wx, Bx.
    rewrite K0, K1, K2, K3. unfold clamped, repeat_edge. simpl. lra. }
  assert (Ry : resized_y_up Cubic true edge_image 2 4 0 0 = - (9 / 128)).
  { unfold resized_y_up. rewrite T, rsum_4, !Wy, !Rx.
    rewrite K0, K1, K2, K3. lra. }
  split; [exact Ry|].
  unfold output. rewrite Ry. unfold clamp, Rmax, Rmin.
  destruct (Rle_dec (- (9 / 128)) 1); [|lra].
  destruct (Rle_dec (- (9 / 128)) 0); lra.
Qed.

(** *** Upsampling with the Lanczos kernel *)

Section LanczosUpsampling.

Lemma sin_lb_poly a :
  sin_lb a = a - a ^ 3 / 6 + a ^ 5 / 120 - a ^ 7 / 5040.
Proof.
  unfold sin_lb, sin_approx, sin_term. simpl sum_f_R0.
  unfold Rdiv. simpl. field.
Qed.

Lemma PI_gt_3 : 3 < PI.
Proof. pose proof PI2_3_2. lra. Qed.

(** A linear lower bound of the sine on [0, 4/3]. *)
Lemma sin_ge_linear x : 0 <= x <= 4 / 3 -> 0.7 * x <= sin x.
Proof.
  intros [H0 H1]. pose proof PI_gt_3 as HPI.
  destruct (SIN x H0) as [Hlb _]; [lra|].
  rewrite sin_lb_poly in Hlb.
  assert (Hx2 : x * x <= 16 / 9) by nra.
  assert (H3 : 0.7 * x <= x - x ^ 3 / 6).
  { replace (x - x ^ 3 / 6) with (x * (1 - x * x / 6)) by field. nra. }
  assert (H5 : 0 <= x ^ 5) by (apply pow_le; assumption).
  assert (H7 : 0 <= x ^ 5 / 120 - x ^ 7 / 5040).
  { replace (x ^ 5 / 120 - x ^ 7 / 5040)
      with (x ^ 5 * ((42 - x * x) / 5040)) by field.
    apply Rmult_le_pos; [assumption | lra]. }
  lra.
Qed.

Lemma abs_sin_shift x (j : Z) : Rabs (sin (x + IZR j * PI)) = Rabs (sin x).
Proof.
  rewrite sin_plus.
  assert (Hs : sin (IZR j * PI) = 0) by (apply sin_eq_0_1; now exists j).
  pose proof (sin2_cos2 (IZR j * PI)) as Hc.
  rewrite Hs in Hc. unfold Rsqr in Hc.
  set (co := cos (IZR j * PI)) in *.
  assert (Hco : Rabs co = 1).
  { unfold Rabs. destruct (Rcase_abs co); nra. }
  rewrite Hs, Rmult_0_r, Rplus_0_r, Rabs_mult, Hco. ring.
Qed.

Lemma sinc_even x : sinc (- x) = sinc x.
Proof.
  unfold sinc.
  destruct (Req_dec_T x 0) as [-> | Hx]; [now rewrite Ropp_0|].
  replace (PI * - x) with (- (PI * x)) by ring.
  rewrite sin_neg. field. assumption.
Qed.

Lemma kernel_lanczos_even x : kernel_lanczos (- x) = kernel_lanczos x.
Proof.
  destruct (Req_dec_T x 0) as [-> | H0]; [now rewrite Ropp_0|].
  destruct (Rlt_dec x (-3)) as [Hlo | Hlo];
    [rewrite !kernel_lanczos_outside by lra; reflexivity|].
  destruct (Rlt_dec 3 x) as [Hhi | Hhi];
    [rewrite !kernel_lanczos_outside by lra; reflexivity|].
  rewrite !kernel_lanczos_inside by lra.
  replace (- x / 3) with (- (x / 3)) by field.
  now rewrite !sinc_even.
Qed.

(** The main lobe, from below. *)
Lemma kernel_lanczos_main_lobe v :
  0 < v <= 1 -> 2.1 * sin (PI * v) * / v <= kernel_lanczos v.
Proof.
  intros [Hv0 Hv1]. pose proof PI_gt_3 as HPI3. pose proof PI_4 as HPI4.
  rewrite kernel_lanczos_inside by lra. unfold sinc.
  assert (Hs : 0 <= sin (PI * v)) by (apply sin_ge_0; nra).
  assert (Hl : 0.7 * (PI * (v / 3)) <= sin (PI * (v / 3)))
    by (apply sin_ge_linear; split; nra).
  assert (Hiv : 0 < / v) by now apply Rinv_0_lt_compat.
  assert (Hq : 2.1 <= sin (PI * (v / 3)) / (v / 3)).
  { apply Rmult_le_reg_r with (v / 3); [lra|].
    unfold Rdiv at 2. rewrite Rmult_assoc, Rinv_l by lra. nra. }
  unfold Rdiv at 1.
  assert (0 <= sin (PI * v) * / v) by (apply Rmult_le_pos; lra).
  nra.
Qed.

(** The side lobes, from below: at distance at least [m] from the
    origin the kernel is at least [- 3 |sin(pi t)| / m^2]. *)
Lemma kernel_lanczos_side_lobe t m :
  1 <= m -> m <= Rabs t <= 3 ->
  - (3 * Rabs (sin (PI * t)) / (m * m)) <= kernel_lanczos t.
Proof.
  intros Hm [Hlo Hhi].
  assert (Ht0 : t <> 0).
  { intros ->. rewrite Rabs_R0 in Hlo. lra. }
  assert (Hrange : -3 <= t <= 3).
  { unfold Rabs in Hhi. destruct (Rcase_abs t); lra. }
  rewrite kernel_lanczos_inside by assumption. unfold sinc.
  set (a := sin (PI * t)). set (b := sin (PI * (t / 3))).
  assert (Hb : Rabs b <= 1).
  { apply Rabs_le. apply SIN_bound. }
  assert (Hval : a / t * (b / (t / 3)) = 3 * (a * b) / (t * t))
    by (field; assumption).
  rewrite Hval.
  assert (Hab : Rabs (a * b) <= Rabs a).
  { rewrite Rabs_mult. pose proof (Rabs_pos a). nra. }
  assert (Htt : m * m <= t * t).
  { replace (t * t) with (Rabs t * Rabs t)
      by (unfold Rabs; destruct (Rcase_abs t); ring). nra. }
  assert (Hmm : 0 < m * m) by nra.
  assert (Hge : - Rabs a <= a * b).
  { pose proof (Rle_abs (- (a * b))). rewrite Rabs_Ropp in *. lra. }
  apply Rle_trans with (- (3 * Rabs a / (t * t))).
  - apply Ropp_le_contravar. unfold Rdiv.
    apply Rmult_le_compat_l; [pose proof (Rabs_pos a); lra|].
    apply Rinv_le_contravar; assumption.
  - assert (Hi : 0 < / (t * t)) by (apply Rinv_0_lt_compat; lra).
    unfold Rdiv. set (i := / (t * t)) in *. nra.
Qed.

Variable scale_factor : R.
Variable x : Z.

Lemma kernel_sum_x_lanczos_up : 0 < kernel_sum_x Lanczos true scale_factor x.
Proof.
  pose proof (first_offset_bounds Lanczos true scale_factor x) as Hd.
  unfold kernel_sum_x.
  replace (kernel_taps Lanczos true scale_factor) with 6%Z
    by (symmetry; apply ceilZ_unique; simpl; lra).
  rewrite rsum_6, !unnormalized_kernel_x_offset.
  unfold kernel_radius, kernel_scaling in *.
  cbn [kernel_info taps kernel] in *.
  set (d := first_offset Lanczos true scale_factor x) in *.
  destruct (Req_dec_T d (-3)) as [E | NE].
  - rewrite E.
    replace ((0 + -3) * 1) with (IZR (-3)) by lra.
    replace ((1 + -3) * 1) with (IZR (-2)) by lra.
    replace ((2 + -3) * 1) with (IZR (-1)) by lra.
    replace ((3 + -3) * 1) with 0 by lra.
    replace ((4 + -3) * 1) with (IZR 1) by lra.
    replace ((5 + -3) * 1) with (IZR 2) by lra.
    rewrite (kernel_lanczos_integer (-3)), (kernel_lanczos_integer (-2)),
            (kernel_lanczos_integer (-1)), (kernel_lanczos_integer 1),
            (kernel_lanczos_integer 2), kernel_lanczos_0 by discriminate.
    lra.
  - set (u := d + 3). assert (Hu : 0 < u < 1) by (subst u; lra).
    set (s := sin (PI * u)).
    pose proof PI_gt_3 as HPI3.
    assert (Hs : 0 < s) by (apply sin_gt_0; nra).
    assert (Habs : forall j : Z, Rabs (sin (PI * (u + IZR j))) = s).
    { intros j. replace (PI * (u + IZR j)) with (PI * u + IZR j * PI) by ring.
      rewrite abs_sin_shift. apply Rabs_pos_eq. fold s. lra. }
    assert (L0 : - (3 * s / (2 * 2)) <= kernel_lanczos ((0 + d) * 1)).
    { replace ((0 + d) * 1) with (u + IZR (-3)) by (subst u; lra).
      rewrite <- (Habs (-3)%Z).
      apply kernel_lanczos_side_lobe; [lra|]. rewrite Rabs_left; lra. }
    assert (L1 : - (3 * s / (1 * 1)) <= kernel_lanczos ((1 + d) * 1)).
    { replace ((1 + d) * 1) with (u + IZR (-2)) by (subst u; lra).
      rewrite <- (Habs (-2)%Z).
      apply kernel_lanczos_side_lobe; [lra|]. rewrite Rabs_left; lra. }
    assert (L2 : 2.1 * s * / (1 - u) <= kernel_lanczos ((2 + d) * 1)).
    { replace ((2 + d) * 1) with (- (1 - u)) by (subst u; lra).
      rewrite kernel_lanczos_even.
      replace s with (sin (PI * (1 - u))).
      - apply kernel_lanczos_main_lobe. lra.
      - replace (PI * (1 - u)) with (PI - PI * u) by ring. apply sin_PI_x. }
    assert (L3 : 2.1 * s * / u <= kernel_lanczos ((3 + d) * 1)).
    { replace ((3 + d) * 1) with u by (subst u; lra).
      apply kernel_lanczos_main_lobe. lra. }
    assert (L4 : - (3 * s / (1 * 1)) <= kernel_lanczos ((4 + d) * 1)).
    { replace ((4 + d) * 1) with (u + IZR 1) by (subst u; lra).
      rewrite <- (Habs 1%Z).
      apply kernel_lanczos_side_lobe; [lra|]. rewrite Rabs_pos_eq; lra. }
    assert (L5 : - (3 * s / (2 * 2)) <= kernel_lanczos ((5 + d) * 1)).
    { replace ((5 + d) * 1) with (u + IZR 2) by (subst u; lra).
      rewrite <- (Habs 2%Z).
      apply kernel_lanczos_side_lobe; [lra|]. rewrite Rabs_pos_eq; lra. }
    assert (Hinv : 4 <= / u + / (1 - u)).
    { clearbody u. clear - Hu.
      assert (Hp : 0 < u * (1 - u)) by nra.
      assert (Hq : u * (1 - u) <= 1 / 4).
      { pose proof (Rle_0_sqr (u - 1 / 2)) as Hsq. unfold Rsqr in Hsq. lra. }
      replace (/ u + / (1 - u)) with (/ (u * (1 - u))) by (field; lra).
      replace 4 with (/ (1 / 4)) by field.
      apply Rinv_le_contravar; assumption. }
    assert (Hmain : 8.4 * s <= 2.1 * s * / u + 2.1 * s * / (1 - u)) by nra.
    lra.
Qed.

End LanczosUpsampling.

(** *** Downsampling by at most 1: the taps are [scale_factor] apart *)

Section Downsampling.

Variable scale_factor : R.
Variable x : Z.
Hypothesis scale_pos : 0 < scale_factor.
Hypothesis scale_le_1 : scale_factor <= 1.

Lemma kernel_taps_down_ge interpolation_type :
  (taps (kernel_info interpolation_type)
   <= kernel_taps interpolation_type false scale_factor)%Z.
Proof.
  unfold kernel_taps, kernel_scaling.
  set (n := taps (kernel_info interpolation_type)).
  assert (Hn : 0 < IZR n)
    by (subst n; destruct interpolation_type; simpl; lra).
  destruct (ceilZ_spec (IZR n / scale_factor)) as [_ Hc].
  apply le_IZR. apply Rle_trans with (IZR n / scale_factor); [|exact Hc].
  apply Rmult_le_reg_r with scale_factor; [assumption|].
  unfold Rdiv. rewrite Rmult_assoc, Rinv_l by lra. nra.
Qed.

(** The first tap, in kernel units, is within one tap spacing of the
    left end of the kernel's support. *)
Lemma first_tap_down interpolation_type :
  let n := IZR (taps (kernel_info interpolation_type)) in
  let t0 := first_offset interpolation_type false scale_factor x
            * scale_factor in
  - (0.5 * n) <= t0 < - (0.5 * n) + scale_factor.
Proof.
  intros n t0.
  pose proof (first_offset_bounds interpolation_type false scale_factor x)
    as [Hlo Hhi].
  set (r := kernel_radius interpolation_type false scale_factor) in *.
  assert (Hr : r * scale_factor = 0.5 * n).
  { subst r n. unfold kernel_radius, kernel_scaling. field. lra. }
  subst t0. split; nra.
Qed.

Lemma rsum_ge_term m (f : Z -> R) k :
  (forall j, 0 <= f j) -> (0 <= k < m)%Z -> f k <= rsum m f.
Proof.
  intros Hf Hk. rewrite rsum_accumulate.
  apply accumulate_ge_term; [auto | now apply rdom_In].
Qed.

Lemma kernel_sum_x_box_down : 0 < kernel_sum_x Box false scale_factor x.
Proof.
  pose proof (first_tap_down Box) as Ht. cbn [kernel_info taps] in Ht.
  pose proof (kernel_taps_down_ge Box) as Hn. cbn [kernel_info taps] in Hn.
  apply Rlt_le_trans
    with (unnormalized_kernel_x Box false scale_factor x 0).
  - rewrite unnormalized_kernel_x_offset.
    unfold kernel_scaling. cbn [kernel_info kernel].
    rewrite kernel_box_inside; [lra | apply Rabs_le; lra].
  - unfold kernel_sum_x.
    apply (rsum_ge_term _
             (fun r => unnormalized_kernel_x Box false scale_factor x r));
      [|lia].
    intros j. apply kernel_box_nonneg.
Qed.

Lemma kernel_sum_x_linear_down :
  0 < kernel_sum_x Linear false scale_factor x.
Proof.
  pose proof (first_tap_down Linear) as Ht. cbn [kernel_info taps] in Ht.
  pose proof (kernel_taps_down_ge Linear) as Hn.
  cbn [kernel_info taps] in Hn.
  set (d := first_offset Linear false scale_factor x) in *.
  assert (Hnn : forall j,
             0 <= unnormalized_kernel_x Linear false scale_factor x j)
    by (intros j; apply kernel_linear_nonneg).
  destruct (Req_dec_T (d * scale_factor) (-1)) as [E | NE].
  - apply Rlt_le_trans
      with (unnormalized_kernel_x Linear false scale_factor x 1).
    + rewrite unnormalized_kernel_x_offset.
      unfold kernel_scaling. cbn [kernel_info kernel]. fold d.
      replace ((1 + d) * scale_factor) with (scale_factor - 1) by lra.
      rewrite kernel_linear_inside; rewrite Rabs_left1; lra.
    + unfold kernel_sum_x.
      apply (rsum_ge_term _
               (fun r => unnormalized_kernel_x Linear false
                                               scale_factor x r));
        [assumption | lia].
  - apply Rlt_le_trans
      with (unnormalized_kernel_x Linear false scale_factor x 0).
    + rewrite unnormalized_kernel_x_offset.
      unfold kernel_scaling. cbn [kernel_info kernel]. fold d.
      replace ((0 + d) * scale_factor) with (d * scale_factor) by lra.
      rewrite kernel_linear_inside; rewrite Rabs_left1; lra.
    + unfold kernel_sum_x.
      apply (rsum_ge_term _
               (fun r => unnormalized_kernel_x Linear false
                                               scale_factor x r));
        [assumption | lia].
Qed.

End Downsampling.

(** *** Downsampling with the cubic kernel *)

Section Telescoping.

Lemma rsum_succ (m : nat) (f : Z -> R) :
  rsum (Z.of_nat (S m)) f = rsum (Z.of_nat m) f + f (Z.of_nat m).
Proof.
  unfold rsum, rdom. rewrite !Nat2Z.id, seq_S, map_app, fold_left_app.
  reflexivity.
Qed.

(** A sum whose terms dominate the increments of [F] dominates the total
    increment of [F]. *)
Lemma rsum_telescope (F : Z -> R) (f : Z -> R) (m : Z) :
  (0 <= m)%Z ->
  (forall k, (0 <= k < m)%Z -> F (k + 1)%Z - F k <= f k) ->
  F m - F 0%Z <= rsum m f.
Proof.
  intros Hm. rewrite <- (Z2Nat.id m Hm).
  induction (Z.to_nat m) as [|j IH]; intros Hstep.
  - unfold rsum. simpl. lra.
  - rewrite rsum_succ.
    assert (F (Z.of_nat j) - F 0%Z <= rsum (Z.of_nat j) f)
      by (apply IH; intros k Hk; apply Hstep; lia).
    assert (F (Z.of_nat j + 1)%Z - F (Z.of_nat j) <= f (Z.of_nat j))
      by (apply Hstep; lia).
    replace (Z.of_nat (S j)) with (Z.of_nat j + 1)%Z by lia. lra.
Qed.

Lemma clamp_cases a lo hi :
  lo <= hi ->
  (a <= lo /\ clamp a lo hi = lo)
  \/ (lo <= a <= hi /\ clamp a lo hi = a)
  \/ (hi <= a /\ clamp a lo hi = hi).
Proof.
  intros Hlh. unfold clamp, Rmax, Rmin.
  destruct (Rle_dec a hi) as [Hah | Hah].
  - destruct (Rle_dec a lo); [left | right; left]; split; lra.
  - destruct (Rle_dec hi lo); right; right; split; lra.
Qed.

(** Increments of [clamp] over a step [s]. *)
Lemma clamp_step_bounds t s lo hi :
  0 <= s -> lo <= hi -> 0 <= clamp (t + s) lo hi - clamp t lo hi <= s.
Proof.
  intros Hs Hlh.
  destruct (clamp_cases t lo hi Hlh) as [[? ->] | [[? ->] | [? ->]]];
    destruct (clamp_cases (t + s) lo hi Hlh) as [[? ->] | [[? ->] | [? ->]]];
    lra.
Qed.

Lemma clamp_step_inside t s lo hi :
  lo <= t -> t + s <= hi -> 0 <= s ->
  clamp (t + s) lo hi - clamp t lo hi = s.
Proof.
  intros H1 H2 Hs. rewrite !clamp_id by lra. ring.
Qed.

Lemma clamp_step_left t s lo hi :
  lo <= hi -> t + s <= lo -> 0 <= s ->
  clamp (t + s) lo hi - clamp t lo hi = 0.
Proof.
  intros Hlh H Hs.
  destruct (clamp_cases t lo hi Hlh) as [[? ->] | [[? ->] | [? ->]]];
    destruct (clamp_cases (t + s) lo hi Hlh) as [[? ->] | [[? ->] | [? ->]]];
    lra.
Qed.

Lemma clamp_step_right t s lo hi :
  lo <= hi -> hi <= t -> 0 <= s ->
  clamp (t + s) lo hi - clamp t lo hi = 0.
Proof.
  intros Hlh H Hs.
  destruct (clamp_cases t lo hi Hlh) as [[? ->] | [[? ->] | [? ->]]];
    destruct (clamp_cases (t + s) lo hi Hlh) as [[? ->] | [[? ->] | [? ->]]];
    lra.
Qed.

End Telescoping.

Section CubicBounds.

Lemma kernel_cubic_centre t : Rabs t <= 1 / 2 -> 9 / 16 <= kernel_cubic t.
Proof.
  intros H. pose proof (Rabs_pos t) as Ha.
  rewrite kernel_cubic_inner by lra. set (a := Rabs t) in *.
  replace (1.5 * (a * a * a) - 2.5 * (a * a) + 1)
    with (9 / 16 + (1 / 2 - a) * (7 / 8 + 7 / 4 * a - 3 / 2 * (a * a)))
    by (decimals; field).
  assert (0 <= (1 / 2 - a) * (7 / 8 + 7 / 4 * a - 3 / 2 * (a * a))).
  { apply Rmult_le_pos; nra. }
  lra.
Qed.

Lemma kernel_cubic_inner_nonneg t : Rabs t <= 1 -> 0 <= kernel_cubic t.
Proof.
  intros H. pose proof (Rabs_pos t) as Ha.
  rewrite kernel_cubic_inner_le by lra. set (a := Rabs t) in *.
  replace (1.5 * (a * a * a) - 2.5 * (a * a) + 1)
    with ((1 - a) * (1 + a - 3 / 2 * (a * a)))
    by (decimals; field).
  apply Rmult_le_pos; nra.
Qed.

Lemma kernel_cubic_outer_lower t :
  1 <= Rabs t <= 2 -> - (2 / 27) <= kernel_cubic t.
Proof.
  intros H. rewrite kernel_cubic_outer_le by lra. set (a := Rabs t) in *.
  replace (-0.5 * (a * a * a) + 2.5 * (a * a) - 4 * a + 2)
    with (- (2 / 27) + / 2 * ((a - 4 / 3) * (a - 4 / 3) * (7 / 3 - a)))
    by (decimals; field).
  assert (0 <= (a - 4 / 3) * (a - 4 / 3) * (7 / 3 - a)).
  { apply Rmult_le_pos; [apply (Rle_0_sqr (a - 4 / 3)) | lra]. }
  lra.
Qed.

End CubicBounds.

Section CubicDownsampling.

Variable scale_factor : R.
Variable x : Z.
Hypothesis scale_pos : 0 < scale_factor.
Hypothesis scale_le_1 : scale_factor <= 1.

Let s := scale_factor.

(** One tap: [s] times the kernel dominates [p] minus the increments of
    the lobe potentials, when [p] is at most [9/16 s] in the centre and
    at most [0] elsewhere. *)
Lemma kernel_cubic_dominates t p :
  (Rabs t <= 1 / 2 -> p <= 9 / 16 * s) ->
  (1 / 2 < Rabs t -> p <= 0) ->
  p - 2 / 27 * ((lobe_left s (t + s) - lobe_left s t)
                + (lobe_right s (t + s) - lobe_right s t))
  <= s * kernel_cubic t.
Proof.
  intros Hc Ho. unfold lobe_left, lobe_right.
  assert (Hs : 0 <= s) by (subst s; lra).
  assert (Hs1 : s <= 1) by (subst s; lra).
  pose proof (clamp_step_bounds t s (-2) (-1 + s) Hs) as D1.
  pose proof (clamp_step_bounds t s 1 (2 + s) Hs) as D2.
  destruct (Rle_dec (Rabs t) (1 / 2)) as [Hin | Hout].
  - pose proof (kernel_cubic_centre t Hin). specialize (Hc Hin). nra.
  - assert (Hout' : 1 / 2 < Rabs t) by lra. specialize (Ho Hout').
    destruct (Rle_dec (Rabs t) 1) as [H1 | H1].
    + pose proof (kernel_cubic_inner_nonneg t H1). nra.
    + destruct (Rle_dec 2 (Rabs t)) as [H2 | H2].
      * rewrite (kernel_cubic_outside t H2). nra.
      * assert (Hk : - (2 / 27) <= kernel_cubic t)
          by (apply kernel_cubic_outer_lower; lra).
        destruct (Rcase_abs t) as [Hneg | Hpos].
        -- rewrite (Rabs_left t Hneg) in *.
           rewrite (clamp_step_inside t s (-2) (-1 + s)) in * by lra. nra.
        -- rewrite (Rabs_right t Hpos) in *.
           rewrite (clamp_step_inside t s 1 (2 + s)) in * by lra. nra.
Qed.

Let d := first_offset Cubic false scale_factor x.
Let m := kernel_taps Cubic false scale_factor.
Let tap (k : Z) : R := (IZR k + d) * s.

Lemma tap_succ k : tap (k + 1) = tap k + s.
Proof. unfold tap. rewrite plus_IZR. ring. Qed.

Lemma tap_first : -2 <= tap 0 < -2 + s.
Proof.
  pose proof (first_tap_down scale_factor x scale_pos Cubic) as H.
  cbn [kernel_info taps] in H. unfold tap. fold d s in H.
  replace ((0 + d) * s) with (d * s) by ring. lra.
Qed.

Lemma taps_positive : (0 <= m)%Z.
Proof.
  pose proof (kernel_taps_down_ge scale_factor scale_pos scale_le_1 Cubic).
  cbn [kernel_info taps] in *. subst m. lia.
Qed.

Lemma tap_last : 2 <= tap m.
Proof.
  pose proof tap_first as Hf. unfold tap in *.
  assert (Hm : 4 <= IZR m * s).
  { subst m. unfold kernel_taps, kernel_scaling. cbn [kernel_info taps].
    destruct (ceilZ_spec (4 / scale_factor)) as [_ Hc]. fold s in Hc |- *.
    apply Rmult_le_compat_r with (r := s) in Hc; [|subst s; lra].
    unfold Rdiv in Hc. rewrite Rmult_assoc, Rinv_l in Hc by (subst s; lra).
    lra. }
  replace ((0 + d) * s) with (d * s) in Hf by ring.
  replace ((IZR m + d) * s) with (IZR m * s + d * s) by ring. lra.
Qed.

Lemma kernel_sum_x_as_taps :
  s * kernel_sum_x Cubic false scale_factor x
  = rsum m (fun k => s * kernel_cubic (tap k)).
Proof.
  rewrite rsum_scal_l. f_equal. unfold kernel_sum_x. fold m.
  apply rsum_ext. intros k _. now rewrite unnormalized_kernel_x_offset.
Qed.

Lemma lobes_total :
  (lobe_left s (tap m) - lobe_left s (tap 0))
  + (lobe_right s (tap m) - lobe_right s (tap 0)) <= 2 + 2 * s.
Proof.
  pose proof tap_first. pose proof tap_last.
  assert (Hs : 0 < s) by (subst s; lra).
  assert (Hl : -2 <= -1 + s) by lra.
  assert (Hr : 1 <= 2 + s) by lra.
  unfold lobe_left, lobe_right.
  destruct (clamp_cases (tap m) _ _ Hl) as [[? ->] | [[? ->] | [? ->]]];
    destruct (clamp_cases (tap 0) _ _ Hl) as [[? ->] | [[? ->] | [? ->]]];
    destruct (clamp_cases (tap m) _ _ Hr) as [[? ->] | [[? ->] | [? ->]]];
    destruct (clamp_cases (tap 0) _ _ Hr) as [[? ->] | [[? ->] | [? ->]]];
    lra.
Qed.

Lemma kernel_sum_x_cubic_down_coarse :
  1 / 2 <= s -> 0 < kernel_sum_x Cubic false scale_factor x.
Proof.
  intros Hhalf. assert (Hs : 0 < s) by (subst s; lra).
  assert (Hs1 : s <= 1) by (subst s; lra).
  apply Rmult_lt_reg_l with s; [assumption|].
  rewrite Rmult_0_r, kernel_sum_x_as_taps.
  set (F := fun k : Z =>
              9 / 16 * s * centre_step (tap k)
              - 2 / 27 * (lobe_left s (tap k) + lobe_right s (tap k))).
  apply Rlt_le_trans with (F m - F 0%Z).
  - pose proof lobes_total. pose proof tap_first. pose proof tap_last.
    subst F. cbv beta. unfold centre_step.
    destruct (Rlt_dec (1 / 2) (tap m)); [|lra].
    destruct (Rlt_dec (1 / 2) (tap 0)); [lra|]. nra.
  - apply rsum_telescope; [apply taps_positive|].
    intros k _. subst F. cbv beta. rewrite tap_succ.
    eapply Rle_trans; [|apply (kernel_cubic_dominates (tap k)
      (9 / 16 * s * centre_step (tap k + s)
       - 9 / 16 * s * centre_step (tap k)))].
    + lra.
    + intros _. unfold centre_step.
      destruct (Rlt_dec (1 / 2) (tap k + s));
        destruct (Rlt_dec (1 / 2) (tap k)); nra.
    + intros Hout. unfold centre_step, Rabs in *.
      destruct (Rcase_abs (tap k));
        destruct (Rlt_dec (1 / 2) (tap k + s));
        destruct (Rlt_dec (1 / 2) (tap k)); nra.
Qed.

Lemma kernel_sum_x_cubic_down_fine :
  s <= 1 / 2 -> 0 < kernel_sum_x Cubic false scale_factor x.
Proof.
  intros Hhalf. assert (Hs : 0 < s) by (subst s; lra).
  apply Rmult_lt_reg_l with s; [assumption|].
  rewrite Rmult_0_r, kernel_sum_x_as_taps.
  set (F := fun k : Z =>
              9 / 16 * centre_ramp s (tap k)
              - 2 / 27 * (lobe_left s (tap k) + lobe_right s (tap k))).
  apply Rlt_le_trans with (F m - F 0%Z).
  - pose proof lobes_total. pose proof tap_first. pose proof tap_last.
    assert (Hlh : -1 / 2 + s <= 1 / 2) by lra.
    subst F. cbv beta. unfold centre_ramp.
    destruct (clamp_cases (tap m) _ _ Hlh) as [[? ->] | [[? ->] | [? ->]]];
      destruct (clamp_cases (tap 0) _ _ Hlh) as [[? ->] | [[? ->] | [? ->]]];
      lra.
  - apply rsum_telescope; [apply taps_positive|].
    intros k _. subst F. cbv beta. rewrite tap_succ.
    assert (Hlh : -1 / 2 + s <= 1 / 2) by lra.
    pose proof (clamp_step_bounds (tap k) s (-1 / 2 + s) (1 / 2)
                                  (Rlt_le _ _ Hs) Hlh) as Hstep.
    eapply Rle_trans; [|apply (kernel_cubic_dominates (tap k)
      (9 / 16 * centre_ramp s (tap k + s) - 9 / 16 * centre_ramp s (tap k)))].
    + lra.
    + intros _. unfold centre_ramp. lra.
    + intros Hout. unfold centre_ramp, Rabs in Hout |- *.
      destruct (Rcase_abs (tap k)).
      * assert (E := clamp_step_left (tap k) s (-1 / 2 + s) (1 / 2) Hlh).
        lra.
      * assert (E := clamp_step_right (tap k) s (-1 / 2 + s) (1 / 2) Hlh).
        lra.
Qed.

Lemma kernel_sum_x_cubic_down : 0 < kernel_sum_x Cubic false scale_factor x.
Proof.
  destruct (Rle_dec s (1 / 2)).
  - now apply kernel_sum_x_cubic_down_fine.
  - apply kernel_sum_x_cubic_down_coarse. lra.
Qed.

End CubicDownsampling.

(** *** Downsampling with the Lanczos kernel *)

(** Bounds of the kernel lobe by lobe. *)
Section LanczosBounds.

Lemma PI_bounds : 3.1415 < PI < 3.1421.
Proof.
  pose proof (PI_2_3_7_ineq 1) as [Hlo Hhi].
  unfold sum_f_R0, tg_alt, PI_2_3_7_tg, Ratan_seq in Hlo, Hhi.
  simpl in Hlo, Hhi. split; lra.
Qed.

Lemma sin_ge_cubic y : 0 <= y <= PI -> y * (1 - y * y / 6) <= sin y.
Proof.
  intros [H0 H1]. pose proof PI_bounds as HPI.
  destruct (SIN y H0 H1) as [Hlb _]. rewrite sin_lb_poly in Hlb.
  assert (H5 : 0 <= y ^ 5) by (apply pow_le; assumption).
  assert (Hy2 : y * y <= 10) by nra.
  assert (H7 : 0 <= y ^ 5 / 120 - y ^ 7 / 5040).
  { replace (y ^ 5 / 120 - y ^ 7 / 5040)
      with (y ^ 5 * ((42 - y * y) / 5040)) by field.
    apply Rmult_le_pos; [assumption | lra]. }
  replace (y * (1 - y * y / 6)) with (y - y ^ 3 / 6) by field. lra.
Qed.

Lemma sin_ge_parabola x : 0 <= x <= 1 -> PI * x * (1 - x) <= sin (PI * x).
Proof.
  pose proof PI_bounds as HPI.
  assert (Hhalf : forall u, 0 <= u <= 1 / 2 ->
                            PI * u * (1 - u) <= sin (PI * u)).
  { intros u Hu.
    apply Rle_trans with (PI * u * (1 - PI * u * (PI * u) / 6));
      [|apply sin_ge_cubic; split; nra].
    assert (Hpp : PI * PI <= 10) by nra.
    assert (Hq : PI * u * (PI * u) / 6 <= u).
    { replace (PI * u * (PI * u) / 6) with (u * (PI * PI * u / 6)) by field.
      assert (PI * PI * u / 6 <= 1) by nra.
      set (w := PI * PI * u / 6) in *. nra. }
    assert (Hp : 0 <= PI * u) by nra.
    apply Rmult_le_compat_l; [assumption | lra]. }
  intros Hx. destruct (Rle_dec x (1 / 2)) as [Hle | Hgt].
  - apply Hhalf. lra.
  - replace (sin (PI * x)) with (sin (PI * (1 - x))).
    + replace (PI * x * (1 - x)) with (PI * (1 - x) * (1 - (1 - x))) by ring.
      apply Hhalf. lra.
    + replace (PI * (1 - x)) with (PI - PI * x) by ring. apply sin_PI_x.
Qed.

(** The main lobe, from below, by a tent. *)
Lemma kernel_lanczos_main_tent t :
  0 < Rabs t <= 1 -> 8.05 * (1 - Rabs t) <= kernel_lanczos t.
Proof.
  intros Ht. pose proof PI_bounds as HPI.
  assert (Hv : forall v, 0 < v <= 1 -> 8.05 * (1 - v) <= kernel_lanczos v).
  { intros v [Hv0 Hv1].
    rewrite kernel_lanczos_inside by lra. unfold sinc.
    assert (H1 : PI * (1 - v) <= sin (PI * v) / v).
    { apply Rmult_le_reg_r with v; [lra|].
      replace (sin (PI * v) / v * v) with (sin (PI * v)) by (field; lra).
      pose proof (sin_ge_parabola v). nra. }
    assert (H2 : PI * (1 - PI * PI / 54) <= sin (PI * (v / 3)) / (v / 3)).
    { apply Rmult_le_reg_r with (v / 3); [lra|].
      replace (sin (PI * (v / 3)) / (v / 3) * (v / 3))
        with (sin (PI * (v / 3))) by (field; lra).
      apply Rle_trans
        with (PI * (v / 3) * (1 - PI * (v / 3) * (PI * (v / 3)) / 6));
        [|apply sin_ge_cubic; split; nra].
      assert (Hq : PI * (v / 3) * (PI * (v / 3)) / 6 <= PI * PI / 54).
      { replace (PI * (v / 3) * (PI * (v / 3)) / 6)
          with (PI * PI / 54 * (v * v)) by field.
        assert (v * v <= 1) by nra. assert (0 <= PI * PI / 54) by nra.
        nra. }
      assert (Hp : 0 <= PI * (v / 3)) by nra.
      replace (PI * (1 - PI * PI / 54) * (v / 3))
        with (PI * (v / 3) * (1 - PI * PI / 54)) by ring.
      apply Rmult_le_compat_l; [assumption | lra]. }
    assert (H3 : 8.05 <= PI * (PI * (1 - PI * PI / 54))).
    { assert (Hlo : 9.869 <= PI * PI) by nra.
      assert (Hhi : PI * PI <= 9.873) by nra.
      replace (PI * (PI * (1 - PI * PI / 54)))
        with (PI * PI * (1 - PI * PI / 54)) by ring.
      set (p := PI * PI) in *. nra. }
    assert (H4 : 0 <= PI * (1 - v)) by nra.
    assert (H5 : 0 <= PI * (1 - PI * PI / 54)) by nra.
    apply Rle_trans with (PI * (1 - v) * (PI * (1 - PI * PI / 54))).
    - nra.
    - apply Rmult_le_compat; assumption. }
  unfold Rabs in *. destruct (Rcase_abs t).
  - rewrite <- kernel_lanczos_even. apply Hv. lra.
  - apply Hv. lra.
Qed.

Lemma abs_sin_lobe t (j : Z) :
  0 <= t - IZR j <= 1 -> Rabs (sin (PI * t)) = sin (PI * (t - IZR j)).
Proof.
  intros H. pose proof PI_bounds as HPI.
  replace (PI * t) with (PI * (t - IZR j) + IZR j * PI) by ring.
  rewrite abs_sin_shift. apply Rabs_pos_eq. apply sin_ge_0; nra.
Qed.

Lemma sin_le_arg y : 0 <= y -> sin y <= y.
Proof.
  intros [H | <-]; [left; now apply sin_lt_x | rewrite sin_0; lra].
Qed.

(** The first side lobes, from below. *)
Lemma kernel_lanczos_side_flat t :
  1 <= Rabs t <= 2 -> -1.75 <= kernel_lanczos t.
Proof.
  intros Ht. pose proof PI_bounds as HPI.
  eapply Rle_trans; [|apply (kernel_lanczos_side_lobe t (Rabs t)); lra].
  set (a := Rabs t) in *.
  assert (Hs : Rabs (sin (PI * t)) = sin (PI * (a - 1))).
  { subst a. unfold Rabs at 2. destruct (Rcase_abs t).
    - rewrite <- Rabs_Ropp, <- sin_neg.
      replace (- (PI * t)) with (PI * (- t)) by ring.
      apply (abs_sin_lobe (- t) 1). unfold Rabs in Ht.
      destruct (Rcase_abs t); lra.
    - apply (abs_sin_lobe t 1). unfold Rabs in Ht.
      destruct (Rcase_abs t); lra. }
  rewrite Hs.
  assert (Hsin : 3 * sin (PI * (a - 1)) <= 1.75 * (a * a)).
  { destruct (Rle_dec a 1.32).
    - pose proof (sin_le_arg (PI * (a - 1))). nra.
    - pose proof (SIN_bound (PI * (a - 1))). nra. }
  assert (Hq : 3 * sin (PI * (a - 1)) / (a * a) <= 1.75).
  { apply Rmult_le_reg_r with (a * a); [nra|].
    unfold Rdiv. rewrite Rmult_assoc, Rinv_l by nra. lra. }
  lra.
Qed.

Lemma kernel_lanczos_side_end t :
  1.6 <= Rabs t <= 2 -> -3.7 * (2 - Rabs t) <= kernel_lanczos t.
Proof.
  intros Ht. pose proof PI_bounds as HPI.
  eapply Rle_trans; [|apply (kernel_lanczos_side_lobe t 1.6); lra].
  set (a := Rabs t) in *.
  assert (Hs : Rabs (sin (PI * t)) = sin (PI * (2 - a))).
  { subst a. unfold Rabs at 2. destruct (Rcase_abs t).
    - rewrite (abs_sin_lobe t (-2)); [f_equal; lra|].
      unfold Rabs in Ht. destruct (Rcase_abs t); lra.
    - rewrite <- Rabs_Ropp, <- sin_neg.
      replace (- (PI * t)) with (PI * (- t)) by ring.
      rewrite (abs_sin_lobe (- t) (-2)); [f_equal; lra|].
      unfold Rabs in Ht. destruct (Rcase_abs t); lra. }
  rewrite Hs.
  pose proof (sin_le_arg (PI * (2 - a))).
  assert (0 <= PI * (2 - a)) by nra.
  assert (PI * (2 - a) <= 3.15 * (2 - a)) by nra.
  lra.
Qed.

Lemma kernel_lanczos_outer t : 2 <= Rabs t -> 0 <= kernel_lanczos t.
Proof.
  intros Ht. pose proof PI_bounds as HPI.
  assert (Hv : forall v, 2 <= v -> 0 <= kernel_lanczos v).
  { intros v Hv. destruct (Rlt_dec 3 v) as [H3 | H3].
    - rewrite kernel_lanczos_outside by lra. lra.
    - rewrite kernel_lanczos_inside by lra. unfold sinc.
      assert (H1 : 0 <= sin (PI * v)).
      { replace (PI * v) with (PI * (v - 2) + 2 * INR 1 * PI)
          by (simpl; ring).
        rewrite sin_period. apply sin_ge_0; nra. }
      assert (H2 : 0 <= sin (PI * (v / 3))) by (apply sin_ge_0; nra).
      apply Rmult_le_pos; apply Rmult_le_pos; try assumption;
        left; apply Rinv_0_lt_compat; lra. }
  unfold Rabs in *. destruct (Rcase_abs t).
  - rewrite <- kernel_lanczos_even. apply Hv. lra.
  - apply Hv. lra.
Qed.

Lemma kernel_lanczos_beyond t : 3 <= Rabs t -> kernel_lanczos t = 0.
Proof.
  intros H. unfold Rabs in H. destruct (Rcase_abs t).
  - destruct (Req_dec_T t (-3)) as [-> | NE].
    + apply (kernel_lanczos_integer (-3)). discriminate.
    + apply kernel_lanczos_outside. left. lra.
  - destruct (Req_dec_T t 3) as [-> | NE].
    + apply (kernel_lanczos_integer 3). discriminate.
    + apply kernel_lanczos_outside. right. lra.
Qed.

End LanczosBounds.

(** Increments of the potentials over one tap spacing. *)
Section LanczosPotentials.

Variable s : R.
Hypothesis s_pos : 0 < s.
Hypothesis s_le_1 : s <= 1.

Lemma Rmax_cases_0 w :
  (w <= 0 /\ Rmax w 0 = 0) \/ (0 <= w /\ Rmax w 0 = w).
Proof.
  unfold Rmax. destruct (Rle_dec w 0); [left | right]; split; lra.
Qed.

Lemma main_potential_step t :
  (Rabs t <= 1 -> main_potential s (t + s) - main_potential s t
                  <= s * (1 - Rabs t))
  /\ (1 <= Rabs t -> main_potential s (t + s) - main_potential s t <= 0).
Proof.
  unfold main_potential, main_left, main_right, Rabs.
  destruct (Rcase_abs t); destruct (Rle_dec (t + s) 0);
    destruct (Rle_dec t 0); try lra;
    cbv zeta;
    destruct (Rmax_cases_0 (1 + (t + s))) as [[? E1] | [? E1]];
    destruct (Rmax_cases_0 (1 + t)) as [[? E2] | [? E2]];
    destruct (Rmax_cases_0 (1 - (t + s))) as [[? E3] | [? E3]];
    destruct (Rmax_cases_0 (1 - t)) as [[? E4] | [? E4]];
    rewrite ?E1, ?E2, ?E3, ?E4;
    split; intros; try lra; try nra.
  pose proof (Rle_0_sqr (t + s / 2)) as Hsq. unfold Rsqr in Hsq. nra.
Qed.

Lemma main_potential_centre :
  main_potential s (0 + s) - main_potential s 0 = s - s * s / 4.
Proof.
  unfold main_potential, main_left, main_right.
  destruct (Rle_dec (0 + s) 0); [lra|].
  destruct (Rle_dec 0 0); [|lra]. cbv zeta.
  destruct (Rmax_cases_0 (1 + 0)) as [[? ->] | [? ->]]; [lra|].
  destruct (Rmax_cases_0 (1 - (0 + s))) as [[? ->] | [? ->]]; [nra|].
  field.
Qed.

Lemma centre_passed_step t :
  0 <= centre_passed (t + s) - centre_passed t.
Proof.
  unfold centre_passed.
  destruct (Rlt_dec 0 (t + s)); destruct (Rlt_dec 0 t); lra.
Qed.

Lemma pair_potential_step t :
  t <> 0 ->
  (Rabs t <= 1 -> pair_potential s (t + s) - pair_potential s t
                  <= 1 - Rabs t)
  /\ (1 <= Rabs t -> pair_potential s (t + s) - pair_potential s t <= 0).
Proof.
  intros Ht. unfold pair_potential, Rabs.
  destruct (Rcase_abs t); destruct (Rle_dec (t + s) 0);
    destruct (Rle_dec t 0); destruct (Rle_dec (t + s) s);
    destruct (Rle_dec t s); split; intros; lra.
Qed.

(** One tap: [s] times the kernel dominates [p] minus the increments of
    the lobe potentials. *)
Lemma kernel_lanczos_dominates t p :
  (t = 0 -> p <= s) ->
  (0 < Rabs t <= 1 -> p <= 8.05 * s * (1 - Rabs t)) ->
  (1 < Rabs t -> p <= 0) ->
  p - 1.75 * ((lobe_left s (t + s) - lobe_left s t)
              + (lobe_right s (t + s) - lobe_right s t))
  <= s * kernel_lanczos t.
Proof.
  intros Hc Hm Ho. unfold lobe_left, lobe_right.
  assert (Hs : 0 <= s) by lra.
  pose proof (clamp_step_bounds t s (-2) (-1 + s) Hs) as D1.
  pose proof (clamp_step_bounds t s 1 (2 + s) Hs) as D2.
  destruct (Req_dec_T t 0) as [E | NE].
  - specialize (Hc E). rewrite E at 5. rewrite kernel_lanczos_0. nra.
  - assert (H0 : 0 < Rabs t) by now apply Rabs_pos_lt.
    destruct (Rle_dec (Rabs t) 1) as [H1 | H1].
    + pose proof (kernel_lanczos_main_tent t (conj H0 H1)).
      specialize (Hm (conj H0 H1)). nra.
    + assert (H1' : 1 < Rabs t) by lra. specialize (Ho H1').
      destruct (Rle_dec 2 (Rabs t)) as [H2 | H2].
      * pose proof (kernel_lanczos_outer t H2). nra.
      * assert (Hk : -1.75 <= kernel_lanczos t)
          by (apply kernel_lanczos_side_flat; lra).
        destruct (Rcase_abs t) as [Hneg | Hpos].
        -- rewrite (Rabs_left t Hneg) in *.
           rewrite (clamp_step_inside t s (-2) (-1 + s)) in * by lra. nra.
        -- rewrite (Rabs_right t Hpos) in *.
           rewrite (clamp_step_inside t s 1 (2 + s)) in * by lra. nra.
Qed.

End LanczosPotentials.

(** Sums over the taps next to a tap that falls on the centre. *)
Section Window.

Lemma below_step_ne i q : i <> q -> below i (q + 1) = below i q.
Proof.
  intros H. unfold below.
  destruct (Z.ltb_spec i (q + 1)); destruct (Z.ltb_spec i q);
    try reflexivity; lia.
Qed.

Lemma window_step (f : Z -> R) q :
  ((q < -5)%Z \/ (5 < q)%Z -> 0 <= f q) ->
  window f (q + 1) - window f q <= f q.
Proof.
  intros Hout.
  destruct (Z_lt_dec q (-5)) as [Hlo | Hlo];
    [unfold window; rewrite !below_step_ne by lia;
     specialize (Hout (or_introl Hlo)); lra|].
  destruct (Z_lt_dec 5 q) as [Hhi | Hhi];
    [unfold window; rewrite !below_step_ne by lia;
     specialize (Hout (or_intror Hhi)); lra|].
  assert (Hq : q = (-5)%Z \/ q = (-4)%Z \/ q = (-3)%Z \/ q = (-2)%Z
               \/ q = (-1)%Z \/ q = 0%Z \/ q = 1%Z \/ q = 2%Z
               \/ q = 3%Z \/ q = 4%Z \/ q = 5%Z) by lia.
  clear Hout Hlo Hhi.
  repeat (destruct Hq as [-> | Hq]; [unfold window, below; simpl; lra|]).
  subst q. unfold window, below; simpl; lra.
Qed.

Lemma window_total (f : Z -> R) lo hi :
  (forall i, (i < lo)%Z -> f i = 0) ->
  (forall i, (hi <= i)%Z -> f i = 0) ->
  window f hi - window f lo
  = f (-5)%Z + f (-4)%Z + f (-3)%Z + f (-2)%Z + f (-1)%Z + f 0%Z
    + f 1%Z + f 2%Z + f 3%Z + f 4%Z + f 5%Z.
Proof.
  intros Hlo Hhi.
  assert (Eh : forall i, f i * below i hi = f i).
  { intros i. unfold below. destruct (Z.ltb_spec i hi); [lra|].
    rewrite (Hhi i) by assumption. lra. }
  assert (El : forall i, f i * below i lo = 0).
  { intros i. unfold below. destruct (Z.ltb_spec i lo); [|lra].
    rewrite (Hlo i) by assumption. lra. }
  unfold window. rewrite !Eh, !El. lra.
Qed.

End Window.

Section LanczosDownsampling.

Variable scale_factor : R.
Variable x : Z.
Hypothesis scale_pos : 0 < scale_factor.
Hypothesis scale_le_1 : scale_factor <= 1.

Let s := scale_factor.
Let d := first_offset Lanczos false scale_factor x.
Let m := kernel_taps Lanczos false scale_factor.
Let tap (k : Z) : R := (IZR k + d) * s.

Lemma ltap_succ k : tap (k + 1) = tap k + s.
Proof. unfold tap. rewrite plus_IZR. ring. Qed.

Lemma ltap_first : -3 <= tap 0 < -3 + s.
Proof.
  pose proof (first_tap_down scale_factor x scale_pos Lanczos) as H.
  cbn [kernel_info taps] in H. unfold tap. fold d s in H.
  replace ((0 + d) * s) with (d * s) by ring. lra.
Qed.

Lemma ltaps_positive : (0 <= m)%Z.
Proof.
  pose proof (kernel_taps_down_ge scale_factor scale_pos scale_le_1 Lanczos).
  cbn [kernel_info taps] in *. subst m. lia.
Qed.

Lemma ltap_last : 3 <= tap m.
Proof.
  pose proof ltap_first as Hf. unfold tap in *.
  assert (Hm : 6 <= IZR m * s).
  { subst m. unfold kernel_taps, kernel_scaling. cbn [kernel_info taps].
    destruct (ceilZ_spec (6 / scale_factor)) as [_ Hc]. fold s in Hc |- *.
    apply Rmult_le_compat_r with (r := s) in Hc; [|subst s; lra].
    unfold Rdiv in Hc. rewrite Rmult_assoc, Rinv_l in Hc by (subst s; lra).
    lra. }
  replace ((0 + d) * s) with (d * s) in Hf by ring.
  replace ((IZR m + d) * s) with (IZR m * s + d * s) by ring. lra.
Qed.

Lemma lanczos_sum_as_taps :
  s * kernel_sum_x Lanczos false scale_factor x
  = rsum m (fun k => s * kernel_lanczos (tap k)).
Proof.
  rewrite rsum_scal_l. f_equal. unfold kernel_sum_x. fold m.
  apply rsum_ext. intros k _. now rewrite unnormalized_kernel_x_offset.
Qed.

Lemma lanczos_lobes_total :
  (lobe_left s (tap m) - lobe_left s (tap 0))
  + (lobe_right s (tap m) - lobe_right s (tap 0)) <= 2 + 2 * s.
Proof.
  pose proof ltap_first. pose proof ltap_last.
  assert (Hs : 0 < s) by (subst s; lra).
  assert (Hl : -2 <= -1 + s) by lra.
  assert (Hr : 1 <= 2 + s) by lra.
  unfold lobe_left, lobe_right.
  destruct (clamp_cases (tap m) _ _ Hl) as [[? ->] | [[? ->] | [? ->]]];
    destruct (clamp_cases (tap 0) _ _ Hl) as [[? ->] | [[? ->] | [? ->]]];
    destruct (clamp_cases (tap m) _ _ Hr) as [[? ->] | [[? ->] | [? ->]]];
    destruct (clamp_cases (tap 0) _ _ Hr) as [[? ->] | [[? ->] | [? ->]]];
    lra.
Qed.

(** Fine tap spacings: the quadratic potential of the main lobe, less the
    loss at a tap that falls on the centre. *)
Lemma kernel_sum_x_lanczos_down_fine :
  s <= 0.38 -> 0 < kernel_sum_x Lanczos false scale_factor x.
Proof.
  intros Hfine. assert (Hs : 0 < s) by (subst s; lra).
  assert (Hs1 : s <= 1) by (subst s; lra).
  apply Rmult_lt_reg_l with s; [assumption|].
  rewrite Rmult_0_r, lanczos_sum_as_taps.
  set (F := fun k : Z =>
              8.05 * main_potential s (tap k)
              - 7.05 * s * centre_passed (tap k)
              - 1.75 * (lobe_left s (tap k) + lobe_right s (tap k))).
  apply Rlt_le_trans with (F m - F 0%Z).
  - pose proof lanczos_lobes_total. pose proof ltap_first.
    pose proof ltap_last.
    subst F. cbv beta.
    unfold main_potential, main_left, main_right, centre_passed.
    destruct (Rle_dec (tap m) 0); [lra|].
    destruct (Rle_dec (tap 0) 0); [|lra].
    destruct (Rlt_dec 0 (tap m)); [|lra].
    destruct (Rlt_dec 0 (tap 0)); [lra|]. cbv zeta.
    destruct (Rmax_cases_0 (1 - tap m)) as [[? ->] | [? ->]]; [|lra].
    destruct (Rmax_cases_0 (1 + tap 0)) as [[? ->] | [? ->]]; [|lra].
    nra.
  - apply rsum_telescope; [apply ltaps_positive|].
    intros k _. subst F. cbv beta. rewrite ltap_succ.
    pose proof (main_potential_step s Hs Hs1 (tap k)) as [Hin Hout].
    pose proof (centre_passed_step s Hs (tap k)) as Hcp.
    eapply Rle_trans; [|apply (kernel_lanczos_dominates s Hs Hs1 (tap k)
      (8.05 * (main_potential s (tap k + s) - main_potential s (tap k))
       - 7.05 * s * (centre_passed (tap k + s) - centre_passed (tap k))))].
    + lra.
    + intros E. rewrite E. rewrite (main_potential_centre s Hs Hs1).
      unfold centre_passed.
      destruct (Rlt_dec 0 (0 + s)); [|lra].
      destruct (Rlt_dec 0 0); [lra|]. nra.
    + intros [H0 H1]. specialize (Hin H1). nra.
    + intros H1. assert (H1' : 1 <= Rabs (tap k)) by lra.
      specialize (Hout H1'). nra.
Qed.

(** Coarse tap spacings, no tap on the centre: the two taps next to the
    centre outweigh the side lobes. *)
Lemma kernel_sum_x_lanczos_down_coarse :
  0.38 <= s -> (forall k, tap k <> 0) ->
  0 < kernel_sum_x Lanczos false scale_factor x.
Proof.
  intros Hcoarse Hoff. assert (Hs : 0 < s) by (subst s; lra).
  assert (Hs1 : s <= 1) by (subst s; lra).
  apply Rmult_lt_reg_l with s; [assumption|].
  rewrite Rmult_0_r, lanczos_sum_as_taps.
  set (F := fun k : Z =>
              8.05 * s * pair_potential s (tap k)
              - 1.75 * (lobe_left s (tap k) + lobe_right s (tap k))).
  apply Rlt_le_trans with (F m - F 0%Z).
  - pose proof lanczos_lobes_total. pose proof ltap_first.
    pose proof ltap_last.
    subst F. cbv beta. unfold pair_potential.
    destruct (Rle_dec (tap m) 0); [lra|].
    destruct (Rle_dec (tap 0) 0); [|lra].
    destruct (Rle_dec (tap m) s); [lra|].
    assert (0 <= (s - 0.38) * (1 - s)) by (apply Rmult_le_pos; lra).
    nra.
  - apply rsum_telescope; [apply ltaps_positive|].
    intros k _. subst F. cbv beta. rewrite ltap_succ.
    pose proof (pair_potential_step s Hs1 (tap k) (Hoff k)) as [Hin Hout].
    eapply Rle_trans; [|apply (kernel_lanczos_dominates s Hs Hs1 (tap k)
      (8.05 * s * (pair_potential s (tap k + s)
                   - pair_potential s (tap k))))].
    + lra.
    + intros E. now destruct (Hoff k).
    + intros [H0 H1]. specialize (Hin H1). nra.
    + intros H1. assert (H1' : 1 <= Rabs (tap k)) by lra.
      specialize (Hout H1'). nra.
Qed.

(** The taps at distance [s], ..., [5 s] from a tap on the centre. *)
Lemma lanczos_aligned_taps :
  0.38 <= s ->
  -1 / 2 < kernel_lanczos (1 * s) + kernel_lanczos (2 * s)
           + kernel_lanczos (3 * s) + kernel_lanczos (4 * s)
           + kernel_lanczos (5 * s).
Proof.
  intros Hcoarse. assert (Hs1 : s <= 1) by (subst s; lra).
  assert (Hmain : forall t, 0 < t <= 1 ->
                            8.05 * (1 - t) <= kernel_lanczos t).
  { intros t Ht. rewrite <- (Rabs_pos_eq t) at 1 by lra.
    apply kernel_lanczos_main_tent. rewrite Rabs_pos_eq; lra. }
  assert (Hflat : forall t, 1 <= t <= 2 -> -1.75 <= kernel_lanczos t).
  { intros t Ht. apply kernel_lanczos_side_flat. rewrite Rabs_pos_eq; lra. }
  assert (Hend : forall t, 1.6 <= t <= 2 ->
                           -3.7 * (2 - t) <= kernel_lanczos t).
  { intros t Ht. rewrite <- (Rabs_pos_eq t) at 1 by lra.
    apply kernel_lanczos_side_end. rewrite Rabs_pos_eq; lra. }
  assert (Houter : forall t, 2 <= t -> 0 <= kernel_lanczos t).
  { intros t Ht. apply kernel_lanczos_outer. rewrite Rabs_pos_eq; lra. }
  destruct (Rle_dec s 0.4) as [H1 | H1].
  { pose proof (Hmain (1 * s)). pose proof (Hmain (2 * s)).
    pose proof (Hflat (3 * s)). pose proof (Hflat (4 * s)).
    pose proof (Hend (5 * s)). lra. }
  destruct (Rle_dec s 0.5) as [H2 | H2].
  { pose proof (Hmain (1 * s)). pose proof (Hmain (2 * s)).
    pose proof (Hflat (3 * s)). pose proof (Hend (4 * s)).
    pose proof (Houter (5 * s)). lra. }
  destruct (Rle_dec s 0.6) as [H3 | H3].
  { pose proof (Hmain (1 * s)). pose proof (Hflat (2 * s)).
    pose proof (Hflat (3 * s)). pose proof (Houter (4 * s)).
    pose proof (Houter (5 * s)). lra. }
  destruct (Rle_dec s (2 / 3)) as [H4 | H4].
  { pose proof (Hmain (1 * s)). pose proof (Hflat (2 * s)).
    pose proof (Hend (3 * s)). pose proof (Houter (4 * s)).
    pose proof (Houter (5 * s)). lra. }
  destruct (Rle_dec s 0.8) as [H5 | H5].
  { pose proof (Hmain (1 * s)). pose proof (Hflat (2 * s)).
    pose proof (Houter (3 * s)). pose proof (Houter (4 * s)).
    pose proof (Houter (5 * s)). lra. }
  pose proof (Hmain (1 * s)). pose proof (Hend (2 * s)).
  pose proof (Houter (3 * s)). pose proof (Houter (4 * s)).
  pose proof (Houter (5 * s)). lra.
Qed.

(** Coarse tap spacings, tap [j] on the centre. *)
Lemma kernel_sum_x_lanczos_down_aligned j :
  0.38 <= s -> tap j = 0 ->
  0 < kernel_sum_x Lanczos false scale_factor x.
Proof.
  intros Hcoarse Hj. assert (Hs : 0 < s) by (subst s; lra).
  assert (Hs1 : s <= 1) by (subst s; lra).
  assert (Hd : d = - IZR j) by (unfold tap in Hj; nra).
  assert (Htap : forall k, tap k = IZR (k - j) * s).
  { intros k. unfold tap. rewrite Hd, minus_IZR. ring. }
  set (f := fun i : Z => kernel_lanczos (IZR i * s)).
  apply Rmult_lt_reg_l with s; [assumption|].
  rewrite Rmult_0_r, lanczos_sum_as_taps.
  set (F := fun k : Z => s * window f (k - j)).
  apply Rlt_le_trans with (F m - F 0%Z).
  - subst F. cbv beta.
    replace (s * window f (m - j) - s * window f (0 - j))
      with (s * (window f (m - j) - window f (0 - j))) by ring.
    rewrite window_total.
    + assert (Heven : forall i, f (- i)%Z = f i).
      { intros i. subst f. cbv beta. rewrite opp_IZR.
        replace (- IZR i * s) with (- (IZR i * s)) by ring.
        apply kernel_lanczos_even. }
      rewrite (Heven 5%Z : f (-5)%Z = f 5%Z),
              (Heven 4%Z : f (-4)%Z = f 4%Z),
              (Heven 3%Z : f (-3)%Z = f 3%Z),
              (Heven 2%Z : f (-2)%Z = f 2%Z),
              (Heven 1%Z : f (-1)%Z = f 1%Z).
      pose proof (lanczos_aligned_taps Hcoarse) as Ha.
      subst f. cbv beta. rewrite Rmult_0_l, kernel_lanczos_0.
      apply Rmult_lt_0_compat; [assumption | lra].
    + intros i Hi. subst f. cbv beta. apply kernel_lanczos_beyond.
      pose proof ltap_first as Hf. rewrite Htap in Hf.
      assert (Hi' : IZR i <= IZR (0 - j) - 1).
      { rewrite <- minus_IZR. apply IZR_le. lia. }
      rewrite Rabs_left1; nra.
    + intros i Hi. subst f. cbv beta. apply kernel_lanczos_beyond.
      pose proof ltap_last as Hl. rewrite Htap in Hl.
      apply IZR_le in Hi. rewrite Rabs_pos_eq; nra.
  - apply rsum_telescope; [apply ltaps_positive|].
    intros k _. subst F. cbv beta.
    replace (k + 1 - j)%Z with (k - j + 1)%Z by lia.
    rewrite Htap. fold (f (k - j)%Z).
    replace (s * window f (k - j + 1) - s * window f (k - j))
      with (s * (window f (k - j + 1) - window f (k - j))) by ring.
    apply Rmult_le_compat_l; [lra|].
    apply window_step. intros Hq. subst f. cbv beta.
    apply kernel_lanczos_outer.
    destruct Hq as [Hq | Hq].
    + assert (IZR (k - j) <= -6) by (apply IZR_le; lia).
      rewrite Rabs_left1; nra.
    + assert (6 <= IZR (k - j)) by (apply IZR_le; lia).
      rewrite Rabs_pos_eq; nra.
Qed.

Lemma kernel_sum_x_lanczos_down :
  0 < kernel_sum_x Lanczos false scale_factor x.
Proof.
  destruct (Rle_dec s 0.38) as [Hfine | Hcoarse].
  - now apply kernel_sum_x_lanczos_down_fine.
  - assert (Hc : 0.38 <= s) by lra.
    assert (Hs : 0 < s) by (subst s; lra).
    destruct (Req_dec_T (IZR (ceilZ (- d))) (- d)) as [E | NE].
    + apply (kernel_sum_x_lanczos_down_aligned (ceilZ (- d))); [exact Hc|].
      unfold tap. rewrite E. ring.
    + apply kernel_sum_x_lanczos_down_coarse; [exact Hc|].
      intros k Hk. apply NE.
      assert (Hd : - d = IZR k) by (unfold tap in Hk; nra).
      rewrite Hd. now rewrite ceilZ_IZR.
Qed.

End LanczosDownsampling.

(** *** Scale factors above one without [upsample] *)

Section Upscaling.

Variable scale_factor : R.

(** With [upsample = false] and a scale factor above [taps - 1], output
    coordinate 0 has a single tap, at offset [(scale_factor - 1) / 2]. *)
Lemma single_tap_at_0 interpolation_type :
  IZR (taps (kernel_info interpolation_type)) <= scale_factor ->
  kernel_sum_x interpolation_type false scale_factor 0
  = kernel (kernel_info interpolation_type) ((scale_factor - 1) / 2).
Proof.
  intros Hs.
  assert (Ht : 1 <= IZR (taps (kernel_info interpolation_type)) <= 6)
    by (destruct interpolation_type; simpl; lra).
  set (T := IZR (taps (kernel_info interpolation_type))) in *.
  assert (Hi : 0 < / scale_factor) by (apply Rinv_0_lt_compat; lra).
  assert (Hi1 : / scale_factor * scale_factor = 1) by (apply Rinv_l; lra).
  unfold kernel_sum_x, unnormalized_kernel_x, beginx, sourcex,
    kernel_taps, kernel_radius, kernel_scaling, info. fold T.
  assert (Hn : ceilZ (T / scale_factor) = 1%Z).
  { apply ceilZ_unique. unfold Rdiv. simpl. split; nra. }
  rewrite Hn, rsum_1.
  assert (Hb : ceilZ ((0 + 0.5) / scale_factor - 0.5
                      - 0.5 * T / scale_factor) = 0%Z).
  { apply ceilZ_unique. unfold Rdiv. simpl. split; nra. }
  rewrite Hb. f_equal. cbn [Z.add].
  assert (Hnz : scale_factor <> 0) by lra. clear - Hnz.
  decimals. now field.
Qed.

(** The box kernel has no weight at output coordinate [n] when the scale
    factor lies strictly between [(2 n + 2) / (2 n + 1)] and
    [2 n / (2 n - 1)] (above 2 when [n = 0]): the single tap falls
    outside the support.  These intervals cover every scale factor
    above 1 other than 2, 4/3, 6/5, ... *)
Lemma kernel_sum_x_box_gap (n : Z) :
  (0 <= n)%Z ->
  2 * IZR n + 2 < (2 * IZR n + 1) * scale_factor ->
  (2 * IZR n - 1) * scale_factor < 2 * IZR n ->
  kernel_sum_x Box false scale_factor n = 0.
Proof.
  intros Hn Hlo Hhi. apply IZR_le in Hn.
  assert (Hs : 1 < scale_factor) by nra.
  assert (Hi : 0 < / scale_factor) by (apply Rinv_0_lt_compat; lra).
  assert (Hi1 : / scale_factor * scale_factor = 1) by (apply Rinv_l; lra).
  unfold kernel_sum_x, unnormalized_kernel_x, beginx, sourcex,
    kernel_taps, kernel_radius, kernel_scaling, info.
  cbn [kernel_info taps kernel].
  assert (Ht : ceilZ (1 / scale_factor) = 1%Z).
  { apply ceilZ_unique. unfold Rdiv. simpl. split; nra. }
  rewrite Ht, rsum_1.
  assert (Hb : ceilZ ((IZR n + 0.5) / scale_factor - 0.5
                      - 0.5 * 1 / scale_factor) = n).
  { apply ceilZ_unique. unfold Rdiv. split.
    - apply Rmult_lt_reg_r with scale_factor; [lra|].
      replace (((IZR n + 0.5) * / scale_factor - 0.5
                - 0.5 * 1 * / scale_factor) * scale_factor)
        with (IZR n * (/ scale_factor * scale_factor)
              - 0.5 * scale_factor) by (decimals; field; lra).
      rewrite Hi1. lra.
    - apply Rmult_le_reg_r with scale_factor; [lra|].
      replace (((IZR n + 0.5) * / scale_factor - 0.5
                - 0.5 * 1 * / scale_factor) * scale_factor)
        with (IZR n * (/ scale_factor * scale_factor)
              - 0.5 * scale_factor) by (decimals; field; lra).
      rewrite Hi1. nra. }
  rewrite Hb. cbn [Z.add]. apply kernel_box_outside.
  replace ((IZR n - ((IZR n + 0.5) / scale_factor - 0.5)) * scale_factor)
    with ((IZR n + 0.5) * scale_factor
          - (IZR n + 0.5) * (/ scale_factor * scale_factor))
    by (decimals; field; lra).
  rewrite Hi1. rewrite Rabs_pos_eq; lra.
Qed.
(** From scale factor 7 on no kernel has a weight at output coordinate 0. *)
Lemma kernel_sum_x_coarse interpolation_type :
  7 <= scale_factor ->
  kernel_sum_x interpolation_type false scale_factor 0 = 0.
Proof.
  intros Hs.
  rewrite single_tap_at_0 by (destruct interpolation_type; simpl; lra).
  destruct interpolation_type; cbn [kernel_info kernel].
  - apply kernel_box_outside. rewrite Rabs_pos_eq; lra.
  - apply kernel_linear_outside. rewrite Rabs_pos_eq; lra.
  - apply kernel_cubic_outside. rewrite Rabs_pos_eq; lra.
  - apply kernel_lanczos_beyond. rewrite Rabs_pos_eq; lra.
Qed.

End Upscaling.

(** *** A configuration with a zero sum *)

Lemma kernel_sum_x_box_down_4 : kernel_sum_x Box false 4 0 = 0.
Proof.
  unfold_generator.
  repeat ceil_is 1%Z. repeat ceil_is 0%Z.
  rewrite rsum_1. cbn [Z.add]. now box_outside.
Qed.

(** C6, counterexample: box kernel, [upsample = false], [scale_factor =
    4], output coordinate 0.  The single tap is evaluated at offset [1.5],
    outside the support of the box kernel, and the sum of the unnormalised
    weights is zero. *)
Lemma kernel_sum_can_be_zero :
  0 < 4
  /\ kernel_taps Box false 4 = 1%Z
  /\ (IZR (0 + beginx Box false 4 0) - sourcex 4 0) * kernel_scaling false 4
     = 1.5
  /\ kernel_sum_x Box false 4 0 = 0.
Proof.
  split; [lra|]. split; [|split].
  - unfold_generator. now ceil_is 1%Z.
  - unfold_generator. ceil_is 0%Z. cbn [Z.add]. lra.
  - apply kernel_sum_x_box_down_4.
Qed.

(** C2, counterexample: in the same configuration the normalised weights
    sum to zero, not to one. *)
Lemma normalized_weights_can_sum_to_zero :
  0 < 4
  /\ rsum (kernel_taps Box false 4) (fun k => kernel_x Box false 4 0 k) = 0
  /\ rsum (kernel_taps Box false 4) (fun k => kernel_x Box false 4 0 k) <> 1.
Proof.
  assert (E : rsum (kernel_taps Box false 4)
                   (fun k => kernel_x Box false 4 0 k) = 0)
    by (apply kernel_x_sum_degenerate, kernel_sum_x_box_down_4).
  rewrite E. repeat split; lra.
Qed.

(** C2, amended: for every output coordinate along either axis, every
    kernel, every scale factor and either setting of [upsample] for which
    the sum of the unnormalised tap weights is not zero, the normalised
    tap weights sum to one. *)
Theorem normalized_weights_sum_to_one
        (interpolation_type : InterpolationType) (upsample : bool)
        (scale_factor : R) (o : Z) :
  (kernel_sum_x interpolation_type upsample scale_factor o <> 0 ->
   rsum (kernel_taps interpolation_type upsample scale_factor)
        (fun k => kernel_x interpolation_type upsample scale_factor o k) = 1)
  /\
  (kernel_sum_y interpolation_type upsample scale_factor o <> 0 ->
   rsum (kernel_taps interpolation_type upsample scale_factor)
        (fun k => kernel_y interpolation_type upsample scale_factor o k) = 1).
Proof.
  split; intros Hnz; now apply kernel_x_sum.
Qed.

Lemma normalized_weights_sum_to_one_witness :
  rsum (kernel_taps Cubic true 2.5) (fun k => kernel_x Cubic true 2.5 7 k) = 1.
Proof.
  apply (normalized_weights_sum_to_one Cubic true 2.5 7).
  rewrite kernel_sum_x_cubic_up. lra.
Defined.

(** C6, amended: for every output coordinate, each of the four kernels
    and every positive scale factor, the sum of the unnormalised tap
    weights is positive, hence not zero, along both axes, when [upsample]
    is set, and when [upsample] is not set and [scale_factor <= 1]: in
    both cases consecutive taps are at most one kernel unit apart. *)
Theorem kernel_sum_positive
        (interpolation_type : InterpolationType) (upsample : bool)
        (scale_factor : R) (o : Z) :
  0 < scale_factor ->
  upsample = true \/ scale_factor <= 1 ->
  0 < kernel_sum_x interpolation_type upsample scale_factor o
  /\ 0 < kernel_sum_y interpolation_type upsample scale_factor o.
Proof.
  intros Hs Hcfg.
  assert (H : 0 < kernel_sum_x interpolation_type upsample scale_factor o).
  { destruct upsample; [|destruct Hcfg as [Hup | Hle]; [discriminate|]];
      destruct interpolation_type.
    - rewrite kernel_sum_x_box_up. lra.
    - rewrite kernel_sum_x_linear_up. lra.
    - rewrite kernel_sum_x_cubic_up. lra.
    - apply kernel_sum_x_lanczos_up.
    - now apply kernel_sum_x_box_down.
    - now apply kernel_sum_x_linear_down.
    - now apply kernel_sum_x_cubic_down.
    - now apply kernel_sum_x_lanczos_down. }
  split; exact H.
Qed.

Lemma kernel_sum_positive_witness :
  0 < 0.4
  /\ (false = true \/ 0.4 <= 1)
  /\ 0 < kernel_sum_x Lanczos false 0.4 3
  /\ 0 < kernel_sum_y Lanczos false 0.4 3.
Proof.
  assert (Hs : 0 < 0.4) by lra.
  assert (Hcfg : false = true \/ 0.4 <= 1) by (right; lra).
  split; [exact Hs|]. split; [exact Hcfg|].
  exact (kernel_sum_positive Lanczos false 0.4 3 Hs Hcfg).
Defined.

(** * Further properties of the generator *)

(** ** The kernel library *)

Section KernelShape.

Lemma kernel_box_even x : kernel_box (- x) = kernel_box x.
Proof. unfold kernel_box. now rewrite Rabs_Ropp. Qed.

Lemma kernel_linear_even x : kernel_linear (- x) = kernel_linear x.
Proof. unfold kernel_linear. now rewrite Rabs_Ropp. Qed.

Lemma Rabs_IZR_ge_1 n : n <> 0%Z -> 1 <= Rabs (IZR n).
Proof.
  intros Hn. rewrite <- abs_IZR. apply IZR_le. lia.
Qed.

Lemma kernel_lanczos_3 x : Rabs x = 3 -> kernel_lanczos x = 0.
Proof.
  intros H. unfold Rabs in H. destruct (Rcase_abs x).
  - replace x with (IZR (-3)) by lra.
    now apply kernel_lanczos_integer.
  - replace x with (IZR 3) by lra.
    now apply kernel_lanczos_integer.
Qed.

Lemma kernel_cubic_le_1 t : kernel_cubic t <= 1.
Proof.
  pose proof (Rabs_pos t) as Ha.
  destruct (Rle_dec (Rabs t) 1) as [H1 | H1].
  - rewrite kernel_cubic_inner_le by assumption. set (a := Rabs t) in *.
    assert (a * a * (5 / 2 - 3 / 2 * a) >= 0).
    { apply Rle_ge. apply Rmult_le_pos; [apply (Rle_0_sqr a) | lra]. }
    replace (1.5 * (a * a * a) - 2.5 * (a * a) + 1)
      with (1 - a * a * (5 / 2 - 3 / 2 * a)) by (decimals; field).
    lra.
  - destruct (Rle_dec (Rabs t) 2) as [H2 | H2].
    + rewrite kernel_cubic_outer_le by lra. set (a := Rabs t) in *.
      assert (0 <= (a - 1) * ((a - 2) * (a - 2))).
      { apply Rmult_le_pos; [lra | apply (Rle_0_sqr (a - 2))]. }
      replace (-0.5 * (a * a * a) + 2.5 * (a * a) - 4 * a + 2)
        with (- (/ 2 * ((a - 1) * ((a - 2) * (a - 2)))))
        by (decimals; field).
      lra.
    + rewrite kernel_cubic_outside by lra. lra.
Qed.

Lemma kernel_cubic_lower t : - (2 / 27) <= kernel_cubic t.
Proof.
  destruct (Rle_dec (Rabs t) 1) as [H1 | H1].
  - pose proof (kernel_cubic_inner_nonneg t H1). lra.
  - destruct (Rle_dec (Rabs t) 2) as [H2 | H2].
    + apply kernel_cubic_outer_lower. lra.
    + rewrite kernel_cubic_outside by lra. lra.
Qed.

End KernelShape.

(** X1: each of the four kernels is an even function of the offset. *)
Theorem kernels_even (interpolation_type : InterpolationType) (x : R) :
  kernel (kernel_info interpolation_type) (- x)
  = kernel (kernel_info interpolation_type) x.
Proof.
  destruct interpolation_type; cbn [kernel_info kernel].
  - apply kernel_box_even.
  - apply kernel_linear_even.
  - apply kernel_cubic_even.
  - apply kernel_lanczos_even.
Qed.

(** X2: each kernel vanishes beyond half its native tap count, and every
    kernel but the box one also vanishes at that distance. *)
Theorem kernels_compact_support
        (interpolation_type : InterpolationType) (x : R) :
  (IZR (taps (kernel_info interpolation_type)) / 2 < Rabs x ->
   kernel (kernel_info interpolation_type) x = 0)
  /\ (interpolation_type <> Box ->
      IZR (taps (kernel_info interpolation_type)) / 2 <= Rabs x ->
      kernel (kernel_info interpolation_type) x = 0).
Proof.
  assert (Strict :
            IZR (taps (kernel_info interpolation_type)) / 2 < Rabs x ->
            kernel (kernel_info interpolation_type) x = 0).
  { destruct interpolation_type; cbn [kernel_info kernel taps]; intros H.
    - apply kernel_box_outside. lra.
    - apply kernel_linear_outside. lra.
    - apply kernel_cubic_outside. lra.
    - apply kernel_lanczos_outside. unfold Rabs in H.
      destruct (Rcase_abs x); [left | right]; lra. }
  split; [exact Strict|].
  intros Hk [Hlt | Heq]; [now apply Strict|].
  destruct interpolation_type; cbn [kernel_info kernel taps] in *.
  - now contradiction Hk.
  - apply kernel_linear_outside. lra.
  - apply kernel_cubic_outside. lra.
  - apply kernel_lanczos_3. lra.
Qed.

Lemma kernels_compact_support_witness :
  kernel (kernel_info Cubic) 2.5 = 0 /\ kernel (kernel_info Lanczos) (-3) = 0.
Proof.
  split.
  - apply (proj1 (kernels_compact_support Cubic 2.5)).
    cbn [kernel_info taps]. rewrite Rabs_pos_eq; lra.
  - apply (proj2 (kernels_compact_support Lanczos (-3))).
    + discriminate.
    + cbn [kernel_info taps]. rewrite Rabs_left; lra.
Defined.

(** X3: each kernel is interpolating: its value is [1] at offset [0] and
    [0] at every other integer offset. *)
Theorem kernels_interpolating
        (interpolation_type : InterpolationType) (n : Z) :
  kernel (kernel_info interpolation_type) (IZR n)
  = if (n =? 0)%Z then 1 else 0.
Proof.
  destruct (Z.eqb_spec n 0) as [-> | Hn].
  - destruct interpolation_type; cbn [kernel_info kernel].
    + apply kernel_box_0.
    + apply kernel_linear_0.
    + apply kernel_cubic_0.
    + apply kernel_lanczos_0.
  - pose proof (Rabs_IZR_ge_1 n Hn) as Habs.
    destruct interpolation_type; cbn [kernel_info kernel].
    + apply kernel_box_outside. lra.
    + now apply kernel_linear_outside.
    + destruct (Rle_dec 2 (Rabs (IZR n))) as [H2 | H2].
      * now apply kernel_cubic_outside.
      * rewrite kernel_cubic_outer by lra.
        assert (E : Rabs (IZR n) = 1).
        { rewrite <- abs_IZR in *. f_equal.
          assert (Z.abs n < 2)%Z by (apply lt_IZR; lra). lia. }
        rewrite E. lra.
    + now apply kernel_lanczos_integer.
Qed.

(** X4: the box and linear kernels take their values in [0, 1]; the cubic
    kernel takes its values in [-2/27, 1], and reaches both ends (at
    offsets [4/3] and [0]). *)
Theorem kernel_ranges (x : R) :
  0 <= kernel_box x <= 1
  /\ 0 <= kernel_linear x <= 1
  /\ - (2 / 27) <= kernel_cubic x <= 1
  /\ kernel_cubic (4 / 3) = - (2 / 27)
  /\ kernel_cubic 0 = 1.
Proof.
  split; [|split; [|split; [|split]]].
  - split; [apply kernel_box_nonneg|].
    destruct (Rle_dec (Rabs x) 0.5).
    + rewrite kernel_box_inside; lra.
    + rewrite kernel_box_outside; lra.
  - split; [apply kernel_linear_nonneg|].
    pose proof (Rabs_pos x).
    destruct (Rlt_dec (Rabs x) 1).
    + rewrite kernel_linear_inside; lra.
    + rewrite kernel_linear_outside; lra.
  - split; [apply kernel_cubic_lower | apply kernel_cubic_le_1].
  - rewrite kernel_cubic_outer; rewrite Rabs_pos_eq by lra;
      [decimals; field | lra].
  - apply kernel_cubic_0.
Qed.

Lemma lanczos_spec_0 : lanczos_spec 0 = 1.
Proof.
  unfold lanczos_spec. destruct (Req_dec_T 0 0); [reflexivity | lra].
Qed.

Lemma kernel_lanczos_scaled_everywhere t :
  t <> 0 -> kernel_lanczos t = PI * PI * lanczos_spec t.
Proof.
  intros H0.
  destruct (Rlt_dec (Rabs t) 3) as [H3 | H3];
    [now apply kernel_lanczos_scaled|].
  unfold lanczos_spec.
  destruct (Req_dec_T t 0) as [|_]; [contradiction|].
  destruct (Rlt_dec (Rabs t) 3) as [|_]; [contradiction|].
  rewrite Rmult_0_r.
  destruct (Req_dec_T (Rabs t) 3) as [E | NE].
  - now apply kernel_lanczos_3.
  - apply kernel_lanczos_outside. unfold Rabs in *.
    destruct (Rcase_abs t); [left | right]; lra.
Qed.

(** X5: the Lanczos kernel of the source against the three-lobe Lanczos
    window, on the whole real line.  At the origin both are [1]; at every
    other offset the kernel is the window multiplied by [pi * pi].  Hence
    the two agree exactly at the origin and at the zeros of the window
    (for instance at the offsets 1 and 5), and differ by the factor
    [pi * pi] wherever else. *)
Theorem kernel_lanczos_is_scaled_window (t : R) :
  kernel_lanczos 0 = 1 /\ lanczos_spec 0 = 1
  /\ (t <> 0 -> kernel_lanczos t = PI * PI * lanczos_spec t)
  /\ (kernel_lanczos t = lanczos_spec t
      <-> t = 0 \/ lanczos_spec t = 0)
  /\ kernel_lanczos 1 = lanczos_spec 1
  /\ kernel_lanczos 5 = lanczos_spec 5.
Proof.
  assert (Hagree : forall u, kernel_lanczos u = lanczos_spec u
                             <-> u = 0 \/ lanczos_spec u = 0).
  { intros u. destruct (Req_dec_T u 0) as [-> | Hu].
    - rewrite kernel_lanczos_0, lanczos_spec_0. split; auto.
    - rewrite (kernel_lanczos_scaled_everywhere u Hu).
      pose proof PI_gt_2 as Hpi. split.
      + intros E. right.
        assert (E' : (PI * PI - 1) * lanczos_spec u = 0) by lra.
        apply Rmult_integral in E'. destruct E' as [E' | E']; [nra | exact E'].
      + intros [E | E]; [contradiction | rewrite E; ring]. }
  repeat split.
  - apply kernel_lanczos_0.
  - apply lanczos_spec_0.
  - apply kernel_lanczos_scaled_everywhere.
  - apply Hagree.
  - apply Hagree.
  - apply Hagree. right.
    assert (K : kernel_lanczos 1 = 0)
      by (apply (kernel_lanczos_integer 1); discriminate).
    rewrite kernel_lanczos_scaled_everywhere in K by lra.
    pose proof PI_gt_2. apply Rmult_integral in K.
    destruct K as [K | K]; [nra | exact K].
  - apply Hagree. right. unfold lanczos_spec.
    destruct (Req_dec_T 5 0) as [|_]; [lra|].
    destruct (Rlt_dec (Rabs 5) 3) as [H|_]; [|reflexivity].
    rewrite Rabs_pos_eq in H; lra.
Qed.

Lemma kernel_lanczos_is_scaled_window_witness :
  1.5 <> 0 /\ kernel_lanczos 1.5 = PI * PI * lanczos_spec 1.5.
Proof.
  split; [lra|].
  apply (proj1 (proj2 (proj2 (kernel_lanczos_is_scaled_window 1.5)))). lra.
Defined.

(** ** The tap window *)

Section TapWindow.

Variable interpolation_type : InterpolationType.
Variable upsample : bool.
Variable scale_factor : R.
Hypothesis scale_pos : 0 < scale_factor.

Lemma taps_pos : 0 < IZR (taps (kernel_info interpolation_type)).
Proof. destruct interpolation_type; simpl; lra. Qed.

Lemma kernel_scaling_pos : 0 < kernel_scaling upsample scale_factor.
Proof. unfold kernel_scaling. destruct upsample; lra. Qed.

Lemma radius_scaled :
  kernel_radius interpolation_type upsample scale_factor
  * kernel_scaling upsample scale_factor
  = IZR (taps (kernel_info interpolation_type)) / 2.
Proof.
  pose proof kernel_scaling_pos. unfold kernel_radius.
  decimals. field. lra.
Qed.

Lemma kernel_taps_spec :
  IZR (kernel_taps interpolation_type upsample scale_factor) - 1
  < 2 * kernel_radius interpolation_type upsample scale_factor
  <= IZR (kernel_taps interpolation_type upsample scale_factor).
Proof.
  pose proof kernel_scaling_pos.
  replace (2 * kernel_radius interpolation_type upsample scale_factor)
    with (IZR (taps (kernel_info interpolation_type))
          / kernel_scaling upsample scale_factor)
    by (unfold kernel_radius; decimals; field; lra).
  apply ceilZ_spec.
Qed.

Lemma kernel_taps_ge_1 :
  (1 <= kernel_taps interpolation_type upsample scale_factor)%Z.
Proof.
  pose proof kernel_scaling_pos as Hk. pose proof taps_pos as Hn.
  destruct kernel_taps_spec as [_ Hhi].
  assert (0 < kernel_radius interpolation_type upsample scale_factor).
  { unfold kernel_radius. apply Rmult_lt_0_compat;
      [lra | now apply Rinv_0_lt_compat]. }
  assert (0 < kernel_taps interpolation_type upsample scale_factor)%Z
    by (apply lt_IZR; lra).
  lia.
Qed.

End TapWindow.

Lemma ceilZ_le a b : a <= b -> (ceilZ a <= ceilZ b)%Z.
Proof.
  intros H. destruct (ceilZ_spec a) as [Ha _].
  destruct (ceilZ_spec b) as [_ Hb].
  apply Zlt_succ_le, lt_IZR. rewrite succ_IZR. lra.
Qed.

Lemma kernel_taps_up interpolation_type scale_factor :
  kernel_taps interpolation_type true scale_factor
  = taps (kernel_info interpolation_type).
Proof.
  unfold kernel_taps, kernel_scaling. apply ceilZ_unique. lra.
Qed.

(** X6: the number of taps.  With [upsample] it is the native tap count
    of the kernel; for a positive scale factor there is at least one tap;
    without [upsample] the kernel is widened when [scale_factor <= 1]
    (at least the native count) and narrowed when [scale_factor >= 1]
    (at most the native count). *)
Theorem kernel_taps_bounds
        (interpolation_type : InterpolationType) (upsample : bool)
        (scale_factor : R) :
  kernel_taps interpolation_type true scale_factor
  = taps (kernel_info interpolation_type)
  /\ (0 < scale_factor ->
      (1 <= kernel_taps interpolation_type upsample scale_factor)%Z)
  /\ (0 < scale_factor <= 1 ->
      (taps (kernel_info interpolation_type)
       <= kernel_taps interpolation_type false scale_factor)%Z)
  /\ (1 <= scale_factor ->
      (kernel_taps interpolation_type false scale_factor
       <= taps (kernel_info interpolation_type))%Z).
Proof.
  split; [apply kernel_taps_up|]. split; [|split].
  - intros Hs. now apply kernel_taps_ge_1.
  - intros [Hs H1]. now apply kernel_taps_down_ge.
  - intros H1. rewrite <- (ceilZ_IZR (taps (kernel_info interpolation_type))).
    unfold kernel_taps, kernel_scaling. apply ceilZ_le.
    pose proof (taps_pos interpolation_type) as Hn.
    apply Rmult_le_reg_r with scale_factor; [lra|].
    unfold Rdiv. rewrite Rmult_assoc, Rinv_l by lra. nra.
Qed.

Lemma kernel_taps_bounds_witness :
  (1 <= kernel_taps Lanczos false 0.3)%Z
  /\ (taps (kernel_info Lanczos) <= kernel_taps Lanczos false 0.3)%Z
  /\ (kernel_taps Cubic false 2.5 <= taps (kernel_info Cubic))%Z.
Proof.
  split; [|split].
  - apply (proj1 (proj2 (kernel_taps_bounds Lanczos false 0.3))). lra.
  - apply (proj1 (proj2 (proj2 (kernel_taps_bounds Lanczos false 0.3)))).
    lra.
  - apply (proj2 (proj2 (proj2 (kernel_taps_bounds Cubic false 2.5)))).
    lra.
Defined.

(** X7: for a positive scale factor, every offset at which the kernel is
    evaluated lies in [-n/2, n/2 + kernel_scaling), where [n] is the
    native tap count; with [upsample] it lies in [-n/2, n/2), inside the
    support of the kernel. *)
Theorem tap_offsets_range
        (interpolation_type : InterpolationType) (upsample : bool)
        (scale_factor : R) (x k : Z) :
  0 < scale_factor ->
  (0 <= k < kernel_taps interpolation_type upsample scale_factor)%Z ->
  let n := IZR (taps (kernel_info interpolation_type)) in
  let t := (IZR (k + beginx interpolation_type upsample scale_factor x)
            - sourcex scale_factor x)
           * kernel_scaling upsample scale_factor in
  - (n / 2) <= t < n / 2 + kernel_scaling upsample scale_factor
  /\ (upsample = true -> t < n / 2).
Proof.
  intros Hs [Hk0 Hk1] n t.
  pose proof (kernel_scaling_pos upsample scale_factor Hs) as Hks.
  pose proof (radius_scaled interpolation_type upsample scale_factor Hs)
    as Hr.
  pose proof (first_offset_bounds interpolation_type upsample scale_factor x)
    as [Hlo Hhi].
  destruct (kernel_taps_spec interpolation_type upsample scale_factor Hs)
    as [Hn _].
  apply IZR_le in Hk0. apply IZR_lt in Hk1.
  assert (Ht : t = (IZR k
                    + first_offset interpolation_type upsample
                                   scale_factor x)
                   * kernel_scaling upsample scale_factor).
  { subst t. unfold first_offset. rewrite plus_IZR. ring. }
  set (d := first_offset interpolation_type upsample scale_factor x) in *.
  set (r := kernel_radius interpolation_type upsample scale_factor) in *.
  set (ks := kernel_scaling upsample scale_factor) in *.
  set (m := kernel_taps interpolation_type upsample scale_factor) in *.
  fold n in Hr.
  assert (Hk1' : IZR k <= IZR m - 1).
  { rewrite <- minus_IZR. apply IZR_le. apply lt_IZR in Hk1. lia. }
  rewrite Ht. split; [split|].
  - assert (0 <= (IZR k + d + r) * ks) by (apply Rmult_le_pos; lra). nra.
  - assert (0 < (2 * r - IZR k - d - r + 1) * ks)
      by (apply Rmult_lt_0_compat; lra).
    nra.
  - intros ->. subst m. rewrite kernel_taps_up in Hk1'. fold n in Hk1'.
    assert (Hks1 : ks = 1) by reflexivity.
    rewrite Hks1 in *. lra.
Qed.

Lemma tap_offsets_range_witness :
  let t := (IZR (2 + beginx Cubic true 3 7) - sourcex 3 7)
           * kernel_scaling true 3 in
  - (IZR 4 / 2) <= t < IZR 4 / 2 + kernel_scaling true 3
  /\ (true = true -> t < IZR 4 / 2).
Proof.
  apply (tap_offsets_range Cubic true 3 7 2).
  - lra.
  - rewrite kernel_taps_up. cbn [kernel_info taps]. lia.
Defined.

(** X8: the tap window misses no sample of the support: for a positive
    scale factor, every source index whose offset lies strictly inside
    the support of the kernel is one of the taps. *)
Theorem tap_window_covers_support
        (interpolation_type : InterpolationType) (upsample : bool)
        (scale_factor : R) (x j : Z) :
  0 < scale_factor ->
  Rabs ((IZR j - sourcex scale_factor x)
        * kernel_scaling upsample scale_factor)
  < IZR (taps (kernel_info interpolation_type)) / 2 ->
  (beginx interpolation_type upsample scale_factor x <= j
   < beginx interpolation_type upsample scale_factor x
     + kernel_taps interpolation_type upsample scale_factor)%Z.
Proof.
  intros Hs Hin.
  pose proof (kernel_scaling_pos upsample scale_factor Hs) as Hks.
  pose proof (radius_scaled interpolation_type upsample scale_factor Hs)
    as Hr.
  pose proof (first_offset_bounds interpolation_type upsample scale_factor x)
    as [Hlo Hhi].
  destruct (kernel_taps_spec interpolation_type upsample scale_factor Hs)
    as [_ Hn].
  unfold first_offset in *.
  set (b := beginx interpolation_type upsample scale_factor x) in *.
  set (r := kernel_radius interpolation_type upsample scale_factor) in *.
  set (ks := kernel_scaling upsample scale_factor) in *.
  set (m := kernel_taps interpolation_type upsample scale_factor) in *.
  set (src := sourcex scale_factor x) in *.
  apply Rabs_def2 in Hin. destruct Hin as [Hup Hdown].
  rewrite <- Hr in Hup, Hdown.
  assert (H1 : IZR j - src < r).
  { apply Rmult_lt_reg_r with ks; [assumption | lra]. }
  assert (H2 : - r < IZR j - src).
  { apply Rmult_lt_reg_r with ks; [assumption | lra]. }
  split.
  - apply Zlt_succ_le, lt_IZR. rewrite succ_IZR. lra.
  - apply lt_IZR. rewrite plus_IZR. lra.
Qed.

Lemma tap_window_covers_support_witness :
  (beginx Linear false 0.5 4 <= 9
   < beginx Linear false 0.5 4 + kernel_taps Linear false 0.5)%Z.
Proof.
  apply (tap_window_covers_support Linear false 0.5 4 9).
  - lra.
  - unfold sourcex, kernel_scaling. cbn [kernel_info taps].
    rewrite Rabs_pos_eq; lra.
Defined.

(** X9: for a positive scale factor the first tap moves with the output
    coordinate: [beginx] is non-decreasing. *)
Theorem beginx_monotone
        (interpolation_type : InterpolationType) (upsample : bool)
        (scale_factor : R) (x x' : Z) :
  0 < scale_factor ->
  (x <= x')%Z ->
  (beginx interpolation_type upsample scale_factor x
   <= beginx interpolation_type upsample scale_factor x')%Z.
Proof.
  intros Hs Hx. unfold beginx. apply ceilZ_le.
  apply IZR_le in Hx. unfold sourcex.
  assert (Hi : 0 < / scale_factor) by now apply Rinv_0_lt_compat.
  unfold Rdiv.
  assert ((IZR x + 0.5) * / scale_factor <= (IZR x' + 0.5) * / scale_factor)
    by (apply Rmult_le_compat_r; lra).
  lra.
Qed.

Lemma beginx_monotone_witness :
  (beginx Cubic false 0.4 3 <= beginx Cubic false 0.4 8)%Z.
Proof.
  apply beginx_monotone; [lra | lia].
Defined.

(** ** The weight tables when upsampling *)

Section UpsamplingWeights.

Variable scale_factor : R.
Variable x : Z.

Lemma kernel_linear_up_weights :
  let d := first_offset Linear true scale_factor x in
  -1 <= d < 0
  /\ kernel_x Linear true scale_factor x 0 = 1 + d
  /\ kernel_x Linear true scale_factor x 1 = - d.
Proof.
  intros d.
  pose proof (first_offset_bounds Linear true scale_factor x) as Hd.
  unfold kernel_radius, kernel_scaling in Hd. cbn [kernel_info taps] in Hd.
  fold d in Hd.
  assert (Hr : -1 <= d < 0) by lra.
  split; [exact Hr|].
  unfold kernel_x. rewrite kernel_sum_x_linear_up.
  rewrite !unnormalized_kernel_x_offset. fold d.
  unfold kernel_scaling. cbn [kernel_info kernel].
  split.
  - destruct (Req_dec_T d (-1)) as [E | NE].
    + rewrite kernel_linear_outside; rewrite ?E, ?Rabs_left; lra.
    + rewrite kernel_linear_inside; rewrite Rabs_left; lra.
  - rewrite kernel_linear_inside; rewrite Rabs_pos_eq; lra.
Qed.

(** The four cubic weights as polynomials in [u], the position of the
    source coordinate past the second tap. *)
Lemma kernel_cubic_up_weights :
  let u := first_offset Cubic true scale_factor x + 2 in
  0 <= u < 1
  /\ kernel_x Cubic true scale_factor x 0
     = 0.5 * (u * u * u) - 0.5 * (u * u)
  /\ kernel_x Cubic true scale_factor x 1
     = -1.5 * (u * u * u) + 2 * (u * u) + 0.5 * u
  /\ kernel_x Cubic true scale_factor x 2
     = 1.5 * (u * u * u) - 2.5 * (u * u) + 1
  /\ kernel_x Cubic true scale_factor x 3
     = -0.5 * (u * u * u) + u * u - 0.5 * u.
Proof.
  intros u.
  pose proof (first_offset_bounds Cubic true scale_factor x) as Hd.
  unfold kernel_radius, kernel_scaling in Hd. cbn [kernel_info taps] in Hd.
  set (d := first_offset Cubic true scale_factor x) in *.
  assert (Hu : 0 <= u < 1) by (subst u; lra).
  split; [exact Hu|].
  unfold kernel_x. rewrite kernel_sum_x_cubic_up.
  rewrite !unnormalized_kernel_x_offset. fold d.
  unfold kernel_scaling. cbn [kernel_info kernel].
  replace ((0 + d) * 1) with (- (2 - u)) by (subst u; lra).
  replace ((1 + d) * 1) with (- (1 - u)) by (subst u; lra).
  replace ((2 + d) * 1) with u by (subst u; lra).
  replace ((3 + d) * 1) with (1 + u) by (subst u; lra).
  rewrite !kernel_cubic_even.
  rewrite (kernel_cubic_outer_le (2 - u)), (kernel_cubic_inner_le (1 - u)),
          (kernel_cubic_inner_le u), (kernel_cubic_outer_le (1 + u))
    by (rewrite Rabs_pos_eq; lra).
  rewrite !Rabs_pos_eq by lra.
  repeat split; decimals; field.
Qed.

End UpsamplingWeights.

(** X10: with [upsample] and the box, linear or cubic kernel, the
    unnormalised weights of every output coordinate already sum to one,
    for any scale factor: the normalisation leaves them unchanged. *)
Theorem upsampling_partition_of_unity
        (interpolation_type : InterpolationType)
        (scale_factor : R) (x k : Z) :
  interpolation_type <> Lanczos ->
  kernel_sum_x interpolation_type true scale_factor x = 1
  /\ kernel_x interpolation_type true scale_factor x k
     = unnormalized_kernel_x interpolation_type true scale_factor x k.
Proof.
  intros Hk.
  assert (H : kernel_sum_x interpolation_type true scale_factor x = 1).
  { destruct interpolation_type.
    - apply kernel_sum_x_box_up.
    - apply kernel_sum_x_linear_up.
    - apply kernel_sum_x_cubic_up.
    - now contradiction Hk. }
  split; [exact H|]. unfold kernel_x. rewrite H. field.
Qed.

Lemma upsampling_partition_of_unity_witness :
  kernel_sum_x Cubic true 1.7 5 = 1
  /\ kernel_x Cubic true 1.7 5 2 = unnormalized_kernel_x Cubic true 1.7 5 2.
Proof.
  apply upsampling_partition_of_unity. discriminate.
Defined.

(** X11: with [upsample] and the linear or cubic kernel, the weights of
    an output coordinate have their centroid at its source coordinate:
    the weighted sum of the tap positions is [sourcex]. *)
Theorem upsampling_weights_centroid
        (interpolation_type : InterpolationType)
        (scale_factor : R) (x : Z) :
  interpolation_type = Linear \/ interpolation_type = Cubic ->
  rsum (kernel_taps interpolation_type true scale_factor)
       (fun k => kernel_x interpolation_type true scale_factor x k
                 * IZR (k + beginx interpolation_type true scale_factor x))
  = sourcex scale_factor x.
Proof.
  intros [-> | ->]; rewrite kernel_taps_up; cbn [kernel_info taps].
  - destruct (kernel_linear_up_weights scale_factor x) as [_ [W0 W1]].
    rewrite rsum_2, W0, W1, !plus_IZR. unfold first_offset. ring.
  - destruct (kernel_cubic_up_weights scale_factor x)
      as [_ [W0 [W1 [W2 W3]]]].
    rewrite rsum_4, W0, W1, W2, W3, !plus_IZR. unfold first_offset.
    decimals. field.
Qed.

Lemma upsampling_weights_centroid_witness :
  rsum (kernel_taps Cubic true 3)
       (fun k => kernel_x Cubic true 3 4 k * IZR (k + beginx Cubic true 3 4))
  = sourcex 3 4.
Proof.
  apply upsampling_weights_centroid. now right.
Defined.

(** X12: with [upsample] and the linear kernel, the x pass is the linear
    interpolation of the two source pixels around the source coordinate:
    with [f] the distance from the first tap, [0 < f <= 1], the result is
    [(1 - f) a + f b]. *)
Theorem linear_upsampling_interpolates
        (input : Buffer) (scale_factor : R) (x y c : Z) :
  let b := beginx Linear true scale_factor x in
  let f := sourcex scale_factor x - IZR b in
  0 < f <= 1
  /\ resized_x_up Linear true input scale_factor x y c
     = (1 - f) * clamped input b y c + f * clamped input (b + 1) y c.
Proof.
  intros b f.
  destruct (kernel_linear_up_weights scale_factor x) as [Hd [W0 W1]].
  unfold first_offset in *. fold b in Hd, W0, W1.
  split; [subst f; lra|].
  unfold resized_x_up. rewrite kernel_taps_up. cbn [kernel_info taps].
  rewrite rsum_2, W0, W1. fold b.
  replace (0 + b)%Z with b by lia. replace (1 + b)%Z with (b + 1)%Z by lia.
  subst f. ring.
Qed.

(** X13: with [upsample] and the cubic kernel, the x pass is the
    Catmull-Rom spline through the four source pixels [p0 .. p3] around
    the source coordinate, at the position [u] past [p1], [0 < u <= 1]. *)
Theorem cubic_upsampling_catmull_rom
        (input : Buffer) (scale_factor : R) (x y c : Z) :
  let b := beginx Cubic true scale_factor x in
  let u := sourcex scale_factor x - IZR (b + 1) in
  let p0 := clamped input b y c in
  let p1 := clamped input (b + 1) y c in
  let p2 := clamped input (b + 2) y c in
  let p3 := clamped input (b + 3) y c in
  0 < u <= 1
  /\ resized_x_up Cubic true input scale_factor x y c
     = p1 + 0.5 * u * (p2 - p0
                       + u * (2 * p0 - 5 * p1 + 4 * p2 - p3
                              + u * (3 * (p1 - p2) + p3 - p0))).
Proof.
  intros b u p0 p1 p2 p3.
  destruct (kernel_cubic_up_weights scale_factor x)
    as [Hu [W0 [W1 [W2 W3]]]].
  set (v := first_offset Cubic true scale_factor x + 2) in *.
  assert (Huv : u = 1 - v).
  { subst u v. unfold first_offset. fold b. rewrite plus_IZR. lra. }
  unfold resized_x_up. rewrite kernel_taps_up. cbn [kernel_info taps].
  rewrite rsum_4, W0, W1, W2, W3. fold b.
  replace (0 + b)%Z with b by lia. replace (1 + b)%Z with (b + 1)%Z by lia.
  replace (2 + b)%Z with (b + 2)%Z by lia.
  replace (3 + b)%Z with (b + 3)%Z by lia.
  fold p0 p1 p2 p3.
  split; [lra|]. rewrite Huv. decimals. field.
Qed.

(** ** Images through the two passes *)

Section Passes.

Variable interpolation_type : InterpolationType.
Variable upsample : bool.
Variable input : Buffer.
Variable scale_factor : R.

(** The [upsample] branch as one double sum over the tap window. *)
Lemma resized_y_up_double_sum x y c :
  resized_y_up interpolation_type upsample input scale_factor x y c
  = rsum (kernel_taps interpolation_type upsample scale_factor)
      (fun j =>
         rsum (kernel_taps interpolation_type upsample scale_factor)
           (fun i =>
              kernel_y interpolation_type upsample scale_factor y j
              * (kernel_x interpolation_type upsample scale_factor x i
                 * clamped input
                     (i + beginx interpolation_type upsample scale_factor x)
                     (j + beginy interpolation_type upsample scale_factor y)
                     c))).
Proof.
  unfold resized_y_up, resized_x_up.
  apply rsum_ext. intros j _. now rewrite rsum_scal_l.
Qed.

Lemma output_as_resized_y_up x y c :
  output interpolation_type upsample input scale_factor x y c
  = clamp (resized_y_up interpolation_type upsample input scale_factor
                        x y c) 0 1.
Proof.
  unfold output. rewrite <- resized_orders_agree. now destruct upsample.
Qed.

End Passes.

(** X14: locality.  The output at [(x, y, c)] depends on the input only
    through the boundary-handled samples of channel [c] in the tap
    window: two inputs whose views agree on the columns [beginx ..
    beginx + kernel_taps - 1] and rows [beginy .. beginy + kernel_taps -
    1] give the same output there. *)
Theorem output_depends_on_window
        (interpolation_type : InterpolationType) (upsample : bool)
        (input1 input2 : Buffer) (scale_factor : R) (x y c : Z) :
  (forall i j,
      (0 <= i < kernel_taps interpolation_type upsample scale_factor)%Z ->
      (0 <= j < kernel_taps interpolation_type upsample scale_factor)%Z ->
      clamped input1
              (i + beginx interpolation_type upsample scale_factor x)
              (j + beginy interpolation_type upsample scale_factor y) c
      = clamped input2
                (i + beginx interpolation_type upsample scale_factor x)
                (j + beginy interpolation_type upsample scale_factor y) c) ->
  output interpolation_type upsample input1 scale_factor x y c
  = output interpolation_type upsample input2 scale_factor x y c.
Proof.
  intros H. rewrite !output_as_resized_y_up, !resized_y_up_double_sum.
  f_equal. apply rsum_ext. intros j Hj. apply rsum_ext. intros i Hi.
  now rewrite H.
Qed.

Lemma output_depends_on_window_witness :
  output Box true two_channel_a 2 0 0 0
  = output Box true two_channel_b 2 0 0 0.
Proof.
  apply output_depends_on_window. intros i j _ _. reflexivity.
Defined.

(** A weighted sum with weights that sum to one. *)
Lemma rsum_weighted_constant n (w : Z -> R) (v : R) :
  rsum n w = 1 -> rsum n (fun k => w k * v) = v.
Proof. intros H. rewrite rsum_scal, H. ring. Qed.

Lemma rsum_minus n (f g : Z -> R) :
  rsum n (fun k => f k - g k) = rsum n f - rsum n g.
Proof.
  rewrite !rsum_accumulate.
  replace (accumulate f (rdom n) 0 - accumulate g (rdom n) 0)
    with (accumulate f (rdom n) 0 + accumulate g (rdom n) 0 * -1) by ring.
  rewrite <- accumulate_scal, <- accumulate_plus.
  apply accumulate_ext. intros; ring.
Qed.

Lemma rsum_nonneg n (f : Z -> R) :
  (forall k, (0 <= k < n)%Z -> 0 <= f k) -> 0 <= rsum n f.
Proof.
  intros H. rewrite rsum_accumulate. apply accumulate_nonneg.
  intros k Hk. apply H. now apply rdom_In.
Qed.

Lemma rsum_weighted_bounds n (w g : Z -> R) (lo hi : R) :
  rsum n w = 1 ->
  (forall k, (0 <= k < n)%Z -> 0 <= w k) ->
  (forall k, (0 <= k < n)%Z -> lo <= g k <= hi) ->
  lo <= rsum n (fun k => w k * g k) <= hi.
Proof.
  intros Hsum Hw Hg.
  assert (Hlo : 0 <= rsum n (fun k => w k * g k - w k * lo)).
  { apply rsum_nonneg. intros k Hk.
    specialize (Hw k Hk). specialize (Hg k Hk). nra. }
  assert (Hhi : 0 <= rsum n (fun k => w k * hi - w k * g k)).
  { apply rsum_nonneg. intros k Hk.
    specialize (Hw k Hk). specialize (Hg k Hk). nra. }
  rewrite rsum_minus, rsum_weighted_constant in Hlo, Hhi by assumption.
  lra.
Qed.

(** X15: a constant image stays constant.  If every sample of channel
    [c] of a non-empty input is [v], then wherever the two kernel sums
    are not zero the weighted sum is [v] and the output is [v] clamped
    to [0, 1], for every kernel, scale factor and [upsample] setting. *)
Theorem constant_image_preserved
        (interpolation_type : InterpolationType) (upsample : bool)
        (input : Buffer) (scale_factor : R) (x y c : Z) (v : R) :
  (0 < x_extent input)%Z ->
  (0 < y_extent input)%Z ->
  (forall x' y',
      in_range (x_min input) (x_extent input) x' = true ->
      in_range (y_min input) (y_extent input) y' = true ->
      data input x' y' c = v) ->
  kernel_sum_x interpolation_type upsample scale_factor x <> 0 ->
  kernel_sum_y interpolation_type upsample scale_factor y <> 0 ->
  resized_y_up interpolation_type upsample input scale_factor x y c = v
  /\ resized_x_down interpolation_type upsample input scale_factor x y c = v
  /\ output interpolation_type upsample input scale_factor x y c
     = clamp v 0 1.
Proof.
  intros Hx Hy Hc Hsx Hsy.
  assert (Hv : forall x' y', clamped input x' y' c = v).
  { intros x' y'. unfold clamped, repeat_edge.
    apply Hc; now apply repeat_edge_coord_in_range. }
  assert (E : resized_y_up interpolation_type upsample input scale_factor
                           x y c = v).
  { unfold resized_y_up.
    rewrite (rsum_ext _ _
               (fun r => kernel_y interpolation_type upsample scale_factor
                                  y r * v)).
    - apply rsum_weighted_constant. now apply kernel_x_sum.
    - intros j _. f_equal. unfold resized_x_up.
      rewrite (rsum_ext _ _
                 (fun r => kernel_x interpolation_type upsample scale_factor
                                    x r * v)).
      + apply rsum_weighted_constant. now apply kernel_x_sum.
      + intros i _. now rewrite Hv. }
  split; [exact E|]. split.
  - now rewrite <- resized_orders_agree.
  - now rewrite output_as_resized_y_up, E.
Qed.

Lemma constant_image_preserved_witness :
  output Cubic true two_channel_a 3 5 (-2) 0 = clamp 0.5 0 1.
Proof.
  apply (constant_image_preserved Cubic true two_channel_a 3 5 (-2) 0 0.5);
    try reflexivity.
  - rewrite kernel_sum_x_cubic_up. lra.
  - rewrite kernel_sum_y_cubic_up. lra.
Defined.

(** ** The non-negative kernels *)

Section NonNegativeKernels.

Variable interpolation_type : InterpolationType.
Variable upsample : bool.
Variable scale_factor : R.
Hypothesis nonneg_kernel :
  interpolation_type = Box \/ interpolation_type = Linear.
Hypothesis scale_pos : 0 < scale_factor.
Hypothesis consistent : upsample = true \/ scale_factor <= 1.

Lemma unnormalized_kernel_x_nonneg x k :
  0 <= unnormalized_kernel_x interpolation_type upsample scale_factor x k.
Proof.
  unfold unnormalized_kernel_x, info.
  destruct nonneg_kernel as [-> | ->]; cbn [kernel_info kernel].
  - apply kernel_box_nonneg.
  - apply kernel_linear_nonneg.
Qed.

Lemma kernel_sum_x_nonneg_kernel_pos x :
  0 < kernel_sum_x interpolation_type upsample scale_factor x.
Proof.
  destruct consistent as [-> | Hle]; destruct nonneg_kernel as [-> | ->].
  - rewrite kernel_sum_x_box_up. lra.
  - rewrite kernel_sum_x_linear_up. lra.
  - destruct upsample.
    + rewrite kernel_sum_x_box_up. lra.
    + now apply kernel_sum_x_box_down.
  - destruct upsample.
    + rewrite kernel_sum_x_linear_up. lra.
    + now apply kernel_sum_x_linear_down.
Qed.

Lemma kernel_x_nonneg x k :
  0 <= kernel_x interpolation_type upsample scale_factor x k.
Proof.
  unfold kernel_x, Rdiv.
  apply Rmult_le_pos; [apply unnormalized_kernel_x_nonneg|].
  left. apply Rinv_0_lt_compat, kernel_sum_x_nonneg_kernel_pos.
Qed.

Lemma kernel_x_sum_nonneg_kernel x :
  rsum (kernel_taps interpolation_type upsample scale_factor)
       (fun k => kernel_x interpolation_type upsample scale_factor x k) = 1.
Proof.
  apply kernel_x_sum. pose proof (kernel_sum_x_nonneg_kernel_pos x). lra.
Qed.

End NonNegativeKernels.

(** X16: the box and linear kernels never overshoot.  For a positive
    scale factor, with [upsample] set or [scale_factor <= 1], the
    normalised weights are non-negative and sum to one, so when the
    samples of channel [c] of a non-empty input lie in [lo, hi] the
    weighted sums of both branches lie in [lo, hi]; for [0 <= lo] and
    [hi <= 1] the final clamp changes nothing. *)
Theorem nonnegative_kernels_no_overshoot
        (interpolation_type : InterpolationType) (upsample : bool)
        (input : Buffer) (scale_factor : R) (x y c : Z) (lo hi : R) :
  interpolation_type = Box \/ interpolation_type = Linear ->
  0 < scale_factor ->
  upsample = true \/ scale_factor <= 1 ->
  (0 < x_extent input)%Z ->
  (0 < y_extent input)%Z ->
  (forall x' y',
      in_range (x_min input) (x_extent input) x' = true ->
      in_range (y_min input) (y_extent input) y' = true ->
      lo <= data input x' y' c <= hi) ->
  lo <= resized_y_up interpolation_type upsample input scale_factor x y c
     <= hi
  /\ lo <= resized_x_down interpolation_type upsample input scale_factor
                          x y c <= hi
  /\ (0 <= lo -> hi <= 1 ->
      output interpolation_type upsample input scale_factor x y c
      = resized_y_up interpolation_type upsample input scale_factor x y c).
Proof.
  intros Hk Hs Hcfg Hx Hy Hdata.
  assert (Hv : forall x' y', lo <= clamped input x' y' c <= hi).
  { intros x' y'. unfold clamped, repeat_edge.
    apply Hdata; now apply repeat_edge_coord_in_range. }
  assert (Hrx : forall y',
             lo <= resized_x_up interpolation_type upsample input
                                scale_factor x y' c <= hi).
  { intros y'. unfold resized_x_up. apply rsum_weighted_bounds.
    - now apply kernel_x_sum_nonneg_kernel.
    - intros k _. now apply kernel_x_nonneg.
    - intros k _. apply Hv. }
  assert (E : lo <= resized_y_up interpolation_type upsample input
                                 scale_factor x y c <= hi).
  { unfold resized_y_up. apply rsum_weighted_bounds.
    - now apply (kernel_x_sum_nonneg_kernel interpolation_type upsample
                                            scale_factor Hk Hs Hcfg y).
    - intros k _. now apply (kernel_x_nonneg interpolation_type upsample
                                             scale_factor Hk Hs Hcfg y).
    - intros k _. apply Hrx. }
  split; [exact E|]. split.
  - now rewrite <- resized_orders_agree.
  - intros H0 H1. rewrite output_as_resized_y_up. apply clamp_id. lra.
Qed.

Lemma nonnegative_kernels_no_overshoot_witness :
  0 <= resized_y_up Linear false checkerboard 0.5 1 0 0 <= 1
  /\ 0 <= resized_x_down Linear false checkerboard 0.5 1 0 0 <= 1
  /\ (0 <= 0 -> 1 <= 1 ->
      output Linear false checkerboard 0.5 1 0 0
      = resized_y_up Linear false checkerboard 0.5 1 0 0).
Proof.
  apply (nonnegative_kernels_no_overshoot
           Linear false checkerboard 0.5 1 0 0 0 1).
  - now right.
  - lra.
  - right. lra.
  - reflexivity.
  - reflexivity.
  - intros x' y' _ _. simpl. destruct (x' =? y')%Z; lra.
Defined.

(** ** The box kernel *)

Section BoxKernel.

Variable input : Buffer.

(** With [upsample] the box kernel has one tap, of weight one. *)
Lemma box_up_single_tap scale_factor x y c :
  resized_y_up Box true input scale_factor x y c
  = clamped input (beginx Box true scale_factor x)
            (beginy Box true scale_factor y) c.
Proof.
  assert (W : forall o, kernel_x Box true scale_factor o 0 = 1).
  { intros o. unfold kernel_x. rewrite kernel_sum_x_box_up.
    rewrite unnormalized_kernel_x_offset.
    pose proof (first_offset_bounds Box true scale_factor o) as Hd.
    unfold kernel_radius, kernel_scaling in *.
    cbn [kernel_info taps kernel] in *.
    rewrite kernel_box_inside; [lra | apply Rabs_le; lra]. }
  unfold resized_y_up, resized_x_up.
  rewrite kernel_taps_up. cbn [kernel_info taps].
  rewrite rsum_1, rsum_1, kernel_y_is_kernel_x, !W.
  replace (0 + beginx Box true scale_factor x)%Z
    with (beginx Box true scale_factor x) by lia.
  replace (0 + beginy Box true scale_factor y)%Z
    with (beginy Box true scale_factor y) by lia.
  ring.
Qed.

Lemma beginx_box_up_integer (n x : Z) :
  (0 < n)%Z -> beginx Box true (IZR n) x = (x / n)%Z.
Proof.
  intros Hn. unfold beginx, sourcex, kernel_radius, kernel_scaling.
  cbn [kernel_info taps]. apply ceilZ_unique.
  pose proof (Z.div_mod x n ltac:(lia)) as Hdm.
  pose proof (Z.mod_pos_bound x n Hn) as [Hr0 Hr1].
  set (q := (x / n)%Z) in *. set (r := (x mod n)%Z) in *.
  assert (En : 0 < IZR n) by now apply IZR_lt.
  assert (Ex : IZR x = IZR n * IZR q + IZR r)
    by (rewrite Hdm, plus_IZR, mult_IZR; reflexivity).
  apply IZR_le in Hr0.
  assert (Hr1' : IZR r <= IZR n - 1).
  { rewrite <- minus_IZR. apply IZR_le. lia. }
  replace ((IZR x + 0.5) / IZR n - 0.5 - 0.5 * 1 / 1)
    with (IZR q + ((IZR r + 0.5) / IZR n - 1))
    by (rewrite Ex; decimals; field; lra).
  assert (H1 : 0 < (IZR r + 0.5) / IZR n).
  { apply Rdiv_lt_0_compat; lra. }
  assert (H2 : (IZR r + 0.5) / IZR n <= 1).
  { apply Rmult_le_reg_r with (IZR n); [assumption|].
    unfold Rdiv. rewrite Rmult_assoc, Rinv_l by lra. lra. }
  lra.
Qed.

End BoxKernel.

(** X17: with [upsample] the box kernel is nearest-neighbour sampling,
    for every scale factor: the output is the (clamped) sample of the
    source pixel [(beginx, beginy)], the pixel whose centre is within
    half a pixel of the source coordinate (ties towards the left). *)
Theorem box_upsampling_is_nearest
        (input : Buffer) (scale_factor : R) (x y c : Z) :
  output Box true input scale_factor x y c
  = clamp (clamped input (beginx Box true scale_factor x)
                   (beginy Box true scale_factor y) c) 0 1
  /\ - 0.5 <= IZR (beginx Box true scale_factor x) - sourcex scale_factor x
     < 0.5
  /\ - 0.5 <= IZR (beginy Box true scale_factor y) - sourcey scale_factor y
     < 0.5.
Proof.
  split; [|split].
  - now rewrite output_as_resized_y_up, box_up_single_tap.
  - pose proof (first_offset_bounds Box true scale_factor x) as Hd.
    unfold first_offset, kernel_radius, kernel_scaling in Hd.
    cbn [kernel_info taps] in Hd. lra.
  - pose proof (first_offset_bounds Box true scale_factor y) as Hd.
    unfold first_offset, kernel_radius, kernel_scaling in Hd.
    cbn [kernel_info taps] in Hd.
    change (beginx Box true scale_factor y)
      with (beginy Box true scale_factor y) in Hd.
    change (sourcex scale_factor y) with (sourcey scale_factor y) in Hd.
    lra.
Qed.

(** X18: with [upsample], the box kernel and an integer scale factor
    [n >= 1], every source pixel is replicated over an [n] by [n] block:
    the output at [(x, y)] is the (clamped) sample at [(x / n, y / n)],
    with the flooring division of [Z]. *)
Theorem box_upsampling_replicates
        (input : Buffer) (n x y c : Z) :
  (0 < n)%Z ->
  output Box true input (IZR n) x y c
  = clamp (clamped input (x / n) (y / n) c) 0 1.
Proof.
  intros Hn.
  rewrite output_as_resized_y_up, box_up_single_tap.
  change (beginy Box true (IZR n) y) with (beginx Box true (IZR n) y).
  now rewrite !beginx_box_up_integer.
Qed.

Lemma box_upsampling_replicates_witness :
  output Box true checkerboard (IZR 3) 5 (-1) 0
  = clamp (clamped checkerboard (5 / 3) (-1 / 3) 0) 0 1.
Proof.
  apply box_upsampling_replicates. lia.
Defined.

Section BoxDownsampling.

Variable input : Buffer.
Variable n : Z.
Hypothesis n_pos : (0 < n)%Z.

Lemma IZR_n_pos : 0 < IZR n.
Proof. now apply IZR_lt. Qed.

Lemma kernel_taps_box_down : kernel_taps Box false (1 / IZR n) = n.
Proof.
  pose proof IZR_n_pos. unfold kernel_taps, kernel_scaling.
  cbn [kernel_info taps]. apply ceilZ_unique.
  replace (1 / (1 / IZR n)) with (IZR n) by (field; lra). lra.
Qed.

Lemma beginx_box_down x : beginx Box false (1 / IZR n) x = (n * x)%Z.
Proof.
  pose proof IZR_n_pos. unfold beginx, sourcex, kernel_radius, kernel_scaling.
  cbn [kernel_info taps]. apply ceilZ_unique. rewrite mult_IZR.
  replace ((IZR x + 0.5) / (1 / IZR n) - 0.5 - 0.5 * 1 / (1 / IZR n))
    with (IZR n * IZR x - 0.5) by (decimals; field; lra).
  lra.
Qed.

Lemma unnormalized_kernel_x_box_down x k :
  (0 <= k < n)%Z -> unnormalized_kernel_x Box false (1 / IZR n) x k = 1.
Proof.
  intros [Hk0 Hk1]. pose proof IZR_n_pos as Hn.
  unfold unnormalized_kernel_x, info. rewrite beginx_box_down.
  unfold sourcex, kernel_scaling. cbn [kernel_info kernel].
  rewrite plus_IZR, mult_IZR.
  replace ((IZR k + IZR n * IZR x - ((IZR x + 0.5) / (1 / IZR n) - 0.5))
           * (1 / IZR n))
    with ((IZR k + 0.5) / IZR n - 0.5) by (decimals; field; lra).
  apply IZR_le in Hk0.
  assert (Hk1' : IZR k <= IZR n - 1).
  { rewrite <- minus_IZR. apply IZR_le. lia. }
  assert (H1 : 0 < (IZR k + 0.5) / IZR n).
  { apply Rdiv_lt_0_compat; lra. }
  assert (H2 : (IZR k + 0.5) / IZR n <= 1).
  { apply Rmult_le_reg_r with (IZR n); [assumption|].
    unfold Rdiv. rewrite Rmult_assoc, Rinv_l by lra. lra. }
  apply kernel_box_inside, Rabs_le. lra.
Qed.

Lemma rsum_const m (v : R) : (0 <= m)%Z -> rsum m (fun _ => v) = IZR m * v.
Proof.
  intros Hm. rewrite <- (Z2Nat.id m Hm).
  induction (Z.to_nat m) as [|j IH].
  - unfold rsum. simpl. lra.
  - rewrite rsum_succ, IH, Nat2Z.inj_succ, succ_IZR. ring.
Qed.

Lemma kernel_sum_x_box_down_integer x :
  kernel_sum_x Box false (1 / IZR n) x = IZR n.
Proof.
  unfold kernel_sum_x. rewrite kernel_taps_box_down.
  rewrite (rsum_ext _ _ (fun _ => 1)).
  - rewrite rsum_const by lia. ring.
  - intros k Hk. now apply unnormalized_kernel_x_box_down.
Qed.

Lemma kernel_x_box_down x k :
  (0 <= k < n)%Z -> kernel_x Box false (1 / IZR n) x k = / IZR n.
Proof.
  intros Hk. pose proof IZR_n_pos. unfold kernel_x.
  rewrite kernel_sum_x_box_down_integer, unnormalized_kernel_x_box_down
    by assumption.
  field. lra.
Qed.

End BoxDownsampling.

(** X19: without [upsample], the box kernel at scale factor [1 / n], for
    an integer [n >= 1], averages [n] by [n] blocks: there are [n] taps
    of weight [1 / n] starting at source index [n x], and the weighted
    sum at [(x, y)] is the mean of the (boundary-handled) samples at
    [(n x + i, n y + j)], [0 <= i, j < n]. *)
Theorem box_downsampling_block_average
        (input : Buffer) (n x y c : Z) :
  (0 < n)%Z ->
  kernel_taps Box false (1 / IZR n) = n
  /\ beginx Box false (1 / IZR n) x = (n * x)%Z
  /\ resized_x_down Box false input (1 / IZR n) x y c
     = rsum n (fun i =>
                 rsum n (fun j => clamped input (i + n * x) (j + n * y) c))
       / (IZR n * IZR n).
Proof.
  intros Hn. pose proof (IZR_n_pos n Hn) as HRn.
  split; [now apply kernel_taps_box_down|].
  split; [now apply beginx_box_down|].
  unfold resized_x_down, resized_y_down.
  rewrite kernel_taps_box_down by assumption.
  rewrite (rsum_ext _ _
             (fun i =>
                rsum n (fun j => clamped input (i + n * x) (j + n * y) c)
                * / (IZR n * IZR n))).
  - now rewrite rsum_scal.
  - intros i Hi.
    rewrite kernel_x_box_down, beginx_box_down by assumption.
    rewrite (rsum_ext _ _
               (fun j => clamped input (i + n * x) (j + n * y) c * / IZR n)).
    + rewrite rsum_scal. field. lra.
    + intros j Hj. rewrite kernel_y_is_kernel_x.
      change (beginy Box false (1 / IZR n) y)
        with (beginx Box false (1 / IZR n) y).
      rewrite kernel_x_box_down, beginx_box_down by assumption. ring.
Qed.

Lemma box_downsampling_block_average_witness :
  kernel_taps Box false (1 / IZR 2) = 2%Z
  /\ beginx Box false (1 / IZR 2) 0 = (2 * 0)%Z
  /\ resized_x_down Box false checkerboard (1 / IZR 2) 0 0 0
     = rsum 2 (fun i =>
                 rsum 2 (fun j =>
                           clamped checkerboard (i + 2 * 0) (j + 2 * 0) 0))
       / (IZR 2 * IZR 2).
Proof.
  apply (box_downsampling_block_average checkerboard 2 0 0 0). lia.
Defined.

(** ** Weight tables under a shift of the output coordinate *)

Lemma ceilZ_plus_IZR a (m : Z) : ceilZ (a + IZR m) = (ceilZ a + m)%Z.
Proof.
  apply ceilZ_unique. rewrite plus_IZR.
  destruct (ceilZ_spec a). lra.
Qed.

Lemma weights_shift_equal
      (interpolation_type : InterpolationType) (upsample : bool)
      (scale_factor : R) (x x' m : Z) :
  sourcex scale_factor x' = sourcex scale_factor x + IZR m ->
  beginx interpolation_type upsample scale_factor x'
  = (beginx interpolation_type upsample scale_factor x + m)%Z
  /\ forall k,
      unnormalized_kernel_x interpolation_type upsample scale_factor x' k
      = unnormalized_kernel_x interpolation_type upsample scale_factor x k.
Proof.
  intros Hsrc.
  assert (Hb : beginx interpolation_type upsample scale_factor x'
               = (beginx interpolation_type upsample scale_factor x + m)%Z).
  { unfold beginx. rewrite Hsrc, <- ceilZ_plus_IZR. f_equal. ring. }
  split; [exact Hb|].
  intros k. unfold unnormalized_kernel_x.
  rewrite Hb, Hsrc, !plus_IZR. f_equal. ring.
Qed.

Lemma weights_shift_normalized
      (interpolation_type : InterpolationType) (upsample : bool)
      (scale_factor : R) (x x' : Z) :
  (forall k,
      unnormalized_kernel_x interpolation_type upsample scale_factor x' k
      = unnormalized_kernel_x interpolation_type upsample scale_factor x k) ->
  kernel_sum_x interpolation_type upsample scale_factor x'
  = kernel_sum_x interpolation_type upsample scale_factor x
  /\ forall k,
      kernel_x interpolation_type upsample scale_factor x' k
      = kernel_x interpolation_type upsample scale_factor x k.
Proof.
  intros Hu.
  assert (Hsum : kernel_sum_x interpolation_type upsample scale_factor x'
                 = kernel_sum_x interpolation_type upsample scale_factor x).
  { unfold kernel_sum_x. apply rsum_ext. intros k _. apply Hu. }
  split; [exact Hsum|]. intros k. unfold kernel_x. now rewrite Hu, Hsum.
Qed.

(** X20: the weights depend on the output coordinate only through the
    fractional position of its source coordinate.  If the source
    coordinates of [x] and [x'] differ by an integer [m], the tap window
    of [x'] is the one of [x] moved by [m] and the two coordinates have
    the same weights, tap by tap. *)
Theorem weights_shift_invariant
        (interpolation_type : InterpolationType) (upsample : bool)
        (scale_factor : R) (x x' m : Z) :
  sourcex scale_factor x' = sourcex scale_factor x + IZR m ->
  beginx interpolation_type upsample scale_factor x'
  = (beginx interpolation_type upsample scale_factor x + m)%Z
  /\ kernel_sum_x interpolation_type upsample scale_factor x'
     = kernel_sum_x interpolation_type upsample scale_factor x
  /\ forall k,
      kernel_x interpolation_type upsample scale_factor x' k
      = kernel_x interpolation_type upsample scale_factor x k.
Proof.
  intros Hsrc.
  destruct (weights_shift_equal interpolation_type upsample scale_factor
                                x x' m Hsrc) as [Hb Hu].
  destruct (weights_shift_normalized interpolation_type upsample
                                     scale_factor x x' Hu) as [Hsum Hk].
  repeat split; assumption.
Qed.

Lemma weights_shift_invariant_witness :
  beginx Cubic true 2 5 = (beginx Cubic true 2 1 + 2)%Z
  /\ kernel_sum_x Cubic true 2 5 = kernel_sum_x Cubic true 2 1
  /\ forall k, kernel_x Cubic true 2 5 k = kernel_x Cubic true 2 1 k.
Proof.
  apply (weights_shift_invariant Cubic true 2 1 5 2).
  unfold sourcex. lra.
Defined.

(** X21: the weight tables are periodic at integer ratios.  At an integer
    scale factor [n >= 1] the weights repeat every [n] output
    coordinates, the window moving by one source pixel; at scale factor
    [1 / n] every output coordinate has the same weights, the window
    moving by [n] source pixels. *)
Theorem weights_periodic_at_integer_ratios
        (interpolation_type : InterpolationType) (upsample : bool)
        (n x k : Z) :
  (0 < n)%Z ->
  (beginx interpolation_type upsample (IZR n) (x + n)
   = (beginx interpolation_type upsample (IZR n) x + 1)%Z
   /\ kernel_x interpolation_type upsample (IZR n) (x + n) k
      = kernel_x interpolation_type upsample (IZR n) x k)
  /\ (beginx interpolation_type upsample (1 / IZR n) (x + 1)
      = (beginx interpolation_type upsample (1 / IZR n) x + n)%Z
      /\ kernel_x interpolation_type upsample (1 / IZR n) (x + 1) k
         = kernel_x interpolation_type upsample (1 / IZR n) x k).
Proof.
  intros Hn. pose proof (IZR_n_pos n Hn) as HRn.
  assert (H1 : sourcex (IZR n) (x + n) = sourcex (IZR n) x + IZR 1).
  { unfold sourcex. rewrite plus_IZR. field. lra. }
  assert (H2 : sourcex (1 / IZR n) (x + 1) = sourcex (1 / IZR n) x + IZR n).
  { unfold sourcex. rewrite plus_IZR. field. lra. }
  split.
  - destruct (weights_shift_equal interpolation_type upsample (IZR n)
                                  x (x + n) 1 H1) as [Hb Hu].
    split; [exact Hb|].
    apply (weights_shift_normalized interpolation_type upsample (IZR n)
                                    x (x + n) Hu).
  - destruct (weights_shift_equal interpolation_type upsample (1 / IZR n)
                                  x (x + 1) n H2) as [Hb Hu].
    split; [exact Hb|].
    apply (weights_shift_normalized interpolation_type upsample (1 / IZR n)
                                    x (x + 1) Hu).
Qed.

Lemma weights_periodic_at_integer_ratios_witness :
  (beginx Lanczos true (IZR 3) (4 + 3) = (beginx Lanczos true (IZR 3) 4 + 1)%Z
   /\ kernel_x Lanczos true (IZR 3) (4 + 3) 2
      = kernel_x Lanczos true (IZR 3) 4 2)
  /\ (beginx Lanczos true (1 / IZR 3) (4 + 1)
      = (beginx Lanczos true (1 / IZR 3) 4 + 3)%Z
      /\ kernel_x Lanczos true (1 / IZR 3) (4 + 1) 2
         = kernel_x Lanczos true (1 / IZR 3) 4 2).
Proof.
  apply weights_periodic_at_integer_ratios. lia.
Defined.
